(** * ncp: the scrape route, its bounded image persister and the image
      retrieval endpoint

    A shallow embedding of the scrape route [src/app/api/scrape/route.ts]
    and of the image retrieval route, together with the properties stated
    about them. The sources hold three revisions of the scrape route; the
    one embedded here is the latest, the one with [cleanSectionMeta],
    [safeDataUrlToBytes], [publicOrigin] and the [b64] option. The two
    earlier ones share [cors], [norm], [GET] and [POST] with it; they copy
    the whole upstream section into the answer and decode without a guard.

    Conventions.
    - JavaScript numbers are modelled by [num]: NaN, the two infinities and
      the rationals (every finite double is a rational, and the code only
      compares numbers, it never does arithmetic on them).
    - JSON values received from the upstream worker are modelled by [json];
      [undefined] is the [None] of an [option json].
    - What the JavaScript platform provides and the repository does not
      define ([Number] on strings, [String] on numbers, the host parser of
      the URL standard, base64 decoding, ...) is collected in the class
      [Platform]; every definition and theorem is parametric in it.
    - Asynchronous code is modelled by explicit state passing; the worker
      pool of [pMap] is a step machine driven by an arbitrary schedule.
    - Messages of errors thrown by the platform are indicative. *)

From Stdlib Require Import ZArith QArith Qround String Ascii List Bool Lia DecimalString.
From stdpp Require Import base option list gmap strings.

Local Open Scope string_scope.

(** ** Strings *)

Module Str.

(** [s.startsWith(p)] *)
Definition startsWith (s p : string) : bool := String.prefix p s.

(** [s.indexOf(c)] for a one-character needle; [None] stands for -1. *)
Fixpoint indexOf (s : string) (c : ascii) : option nat :=
  match s with
  | EmptyString => None
  | String a s' =>
      if Ascii.eqb a c then Some 0
      else match indexOf s' c with
           | Some i => Some (S i)
           | None => None
           end
  end.

(** [s.slice(i)] for [0 <= i]. *)
Fixpoint slice_from (i : nat) (s : string) : string :=
  match i, s with
  | 0, _ => s
  | S i', String _ s' => slice_from i' s'
  | S _, EmptyString => EmptyString
  end.

Fixpoint to_list (s : string) : list ascii :=
  match s with
  | EmptyString => []
  | String a s' => a :: to_list s'
  end.

Fixpoint of_list (l : list ascii) : string :=
  match l with
  | [] => EmptyString
  | a :: l' => String a (of_list l')
  end.

Definition rev (s : string) : string := of_list (List.rev (to_list s)).

(** [xs.join(sep)] *)
Fixpoint join (sep : string) (xs : list string) : string :=
  match xs with
  | [] => EmptyString
  | [x] => x
  | x :: rest => x ++ sep ++ join sep rest
  end.

(** [s.split(",")]: always at least one piece. *)
Fixpoint split (c : ascii) (s : string) : list string :=
  match s with
  | EmptyString => [EmptyString]
  | String a s' =>
      if Ascii.eqb a c then EmptyString :: split c s'
      else match split c s' with
           | [] => [String a EmptyString]
           | p :: ps => String a p :: ps
           end
  end.

(** White space removed by [trim], ASCII part: TAB, LF, VT, FF, CR, SP. *)
Definition is_space (a : ascii) : bool :=
  let n := nat_of_ascii a in
  (Nat.leb 9 n && Nat.leb n 13) || Nat.eqb n 32.

Fixpoint trimStart (s : string) : string :=
  match s with
  | String a s' => if is_space a then trimStart s' else s
  | EmptyString => EmptyString
  end.

Definition trim (s : string) : string := rev (trimStart (rev (trimStart s))).

(** [s.replace(/\/+$/, ...)] with the empty replacement: trailing slashes go. *)
Fixpoint dropSlashes (s : string) : string :=
  match s with
  | String "/" s' => dropSlashes s'
  | _ => s
  end.

Definition stripTrailingSlashes (s : string) : string := rev (dropSlashes (rev s)).

(** [String(n)] for a non-negative integer loop index. *)
Definition of_nat (n : nat) : string := NilZero.string_of_uint (Nat.to_uint n).

(** [s.padStart(2, "0")] *)
Definition padStart2 (s : string) : string :=
  match String.length s with
  | 0 => "00"
  | 1 => "0" ++ s
  | _ => s
  end.

Definition nonempty (s : string) : bool :=
  match s with EmptyString => false | _ => true end.

End Str.

(** ** Numbers *)

Inductive num : Type :=
| NaN
| NegInf
| Fin (q : Q)
| PosInf.

Definition num_of_Z (z : Z) : num := Fin (inject_Z z).
Definition num_of_nat (n : nat) : num := num_of_Z (Z.of_nat n).

(** [a <= b]; false as soon as one side is NaN. *)
Definition num_leb (a b : num) : bool :=
  match a, b with
  | NaN, _ | _, NaN => false
  | NegInf, _ => true
  | _, PosInf => true
  | Fin x, Fin y => Qle_bool x y
  | _, _ => false
  end.

Definition Math_min (a b : num) : num :=
  match a, b with
  | NaN, _ | _, NaN => NaN
  | _, _ => if num_leb a b then a else b
  end.

Definition Math_max (a b : num) : num :=
  match a, b with
  | NaN, _ | _, NaN => NaN
  | _, _ => if num_leb a b then b else a
  end.

(** [function clamp(n, lo, hi) { return Math.max(lo, Math.min(hi, n)); }] *)
Definition clamp (n lo hi : num) : num := Math_max lo (Math_min hi n).

(** Truthiness of a number: NaN and zero are falsy. *)
Definition num_truthy (n : num) : bool :=
  match n with
  | NaN => false
  | Fin q => negb (Qeq_bool q 0)
  | _ => true
  end.

(** [a || b] on numbers. *)
Definition num_or (a b : num) : num := if num_truthy a then a else b.

(** Truncation toward zero of a rational. *)
Definition Qtrunc (q : Q) : Z := Z.quot (Qnum q) (Zpos (Qden q)).

(** [xs.slice(0, end)]: [end] goes through ToIntegerOrInfinity; a negative
    end counts from the end of the array. *)
Definition slice0 {A} (e : num) (xs : list A) : list A :=
  match e with
  | NaN | NegInf => []
  | PosInf => xs
  | Fin q =>
      let k := Qtrunc q in
      if (k <? 0)%Z then firstn (Z.to_nat (Z.of_nat (length xs) + k)) xs
      else firstn (Z.to_nat k) xs
  end.

(** ** JSON values *)

#[warnings="-register-all"]
Inductive json : Type :=
| JNull
| JBool (b : bool)
| JNum (q : Q)
| JStr (s : string)
| JArr (xs : list json)
| JObj (fields : list (string * json)).

Fixpoint assoc {A} (k : string) (l : list (string * A)) : option A :=
  match l with
  | [] => None
  | (k', v) :: l' => if String.eqb k' k then Some v else assoc k l'
  end.

(** [v.k] on a value that is neither [null] nor [undefined]. None of the
    property names read by the routes exists on the prototypes of strings,
    numbers, booleans or arrays, so only objects have them. *)
Definition prop (v : json) (k : string) : option json :=
  match v with
  | JObj fs => assoc k fs
  | _ => None
  end.

(** Truthiness of a possibly undefined value. *)
Definition truthy (v : option json) : bool :=
  match v with
  | None | Some JNull => false
  | Some (JBool b) => b
  | Some (JNum q) => negb (Qeq_bool q 0)
  | Some (JStr s) => Str.nonempty s
  | Some (JArr _) | Some (JObj _) => true
  end.

(** ** The platform *)

Class Platform : Type := {
  (** [Number(s)] on a string *)
  Number_ : string -> num;
  (** [String(n)] on a number *)
  String_ : num -> string;
  (** the host parser of the URL standard; the flag is "is opaque"
      (true for a scheme that is not special) *)
  parse_host : bool -> string -> option string;
  (** the search parameters of [new URL(s)], [None] when the constructor
      throws *)
  URL_searchParams : string -> option (list (string * string));
  (** [Buffer.from(s, "base64")], [None] when it throws *)
  Buffer_from_base64 : string -> option (list Byte.byte);
}.

Section ToString.
Context {P : Platform}.

(** [String(v)] / template-literal conversion of a JSON value. *)
Fixpoint ToString (v : json) : string :=
  match v with
  | JNull => "null"
  | JBool true => "true"
  | JBool false => "false"
  | JNum q => String_ (Fin q)
  | JStr s => s
  | JArr xs =>
      Str.join ","
        (List.map (fun x => match x with JNull => EmptyString | _ => ToString x end) xs)
  | JObj _ => "[object Object]"
  end.
End ToString.

(** ** Object storage, requests and responses *)

Abbreviation bytes := (list Byte.byte).

Record HttpMetadata : Type := { contentType : option string }.

Record R2Object : Type := {
  body : bytes;
  httpMetadata : option HttpMetadata;
}.

(** The bucket is a key/value blob store. *)
Abbreviation Store := (gmap string R2Object).

(** [bucket.put(key, value, { httpMetadata: { contentType } })] *)
Definition bucket_put (key : string) (value : bytes) (ct : string) (st : Store) : Store :=
  <[key := {| body := value; httpMetadata := Some {| contentType := Some ct |} |}]> st.

(** [bucket.get(key)] *)
Definition bucket_get (key : string) (st : Store) : option R2Object := st !! key.

Abbreviation Headers := (list (string * string)).
Abbreviation SearchParams := (list (string * string)).

(** [params.get(k)]: the first value of [k]. *)
Definition sp_get (k : string) (ps : SearchParams) : option string := assoc k ps.

Definition sp_remove (k : string) (ps : SearchParams) : SearchParams :=
  List.filter (fun kv => negb (String.eqb (fst kv) k)) ps.

(** [params.set(k, v)]: the first [k] takes the value, later ones go;
    appended when there is none. *)
Fixpoint sp_set (k v : string) (ps : SearchParams) : SearchParams :=
  match ps with
  | [] => [(k, v)]
  | (k', v') :: ps' =>
      if String.eqb k' k then (k, v) :: sp_remove k ps'
      else (k', v') :: sp_set k v ps'
  end.

Record Request : Type := {
  req_headers : Headers;          (* names in lower case *)
  req_query : SearchParams;       (* [new URL(req.url).searchParams] *)
  req_host : string;              (* [new URL(req.url).host] *)
  req_json : option json;         (* [await req.json()], [None] when it throws *)
}.

Definition header (name : string) (req : Request) : option string :=
  assoc name (req_headers req).

(** The section of a response, after [cleanSectionMeta] and persistence. *)
Record Out : Type := {
  o_id : option string;
  o_role : option string;
  o_bbox : option (list json);
  o_confidence : option Q;
  o_label : option string;
  o_image : option string;
  o_images : option (list string);
  o_image_b64 : option string;
  o_images_b64 : option (list string);
}.

Inductive Body : Type :=
| BNull
| BText (s : string)
| BJson (v : json)                      (* [JSON.stringify(v)] *)
| BScrape (jobId origin : string) (sections : list (option Out)) (meta : json)
    (* [JSON.stringify({ jobId, origin, sections, meta })]; a hole of the
       array is [None] *)
| BStream (b : bytes).

Record Response : Type := {
  status : Z;
  rbody : Body;
  rheaders : Headers;
}.

(** What [new Response(body, { status, headers })] checks: the status is in
    200..599 and a null-body status comes without a body. *)
Definition null_body_status (s : Z) : bool :=
  (s =? 204)%Z || (s =? 205)%Z || (s =? 304)%Z.

Definition new_Response (b : Body) (s : Z) (hs : Headers) : string + Response :=
  if negb ((200 <=? s)%Z && (s <=? 599)%Z) then
    inl "The status provided is outside the range [200, 599]."
  else if null_body_status s && match b with BNull => false | _ => true end then
    inl "Response with null body status cannot have body"
  else inr {| status := s; rbody := b; rheaders := hs |}.

(** The request sent to the sectionization worker. *)
Record WorkerRequest : Type := {
  wr_url : string;                (* [CF_URL] *)
  wr_params : SearchParams;       (* the search parameters of the request *)
  wr_authorization : string;
}.

Record WorkerResponse : Type := {
  ws_status : Z;
  ws_text : string;               (* [await wres.text()] *)
  ws_json : option json;          (* [await wres.json()], [None] when it throws *)
}.

Definition ws_ok (w : WorkerResponse) : bool :=
  (200 <=? ws_status w)%Z && (ws_status w <=? 299)%Z.

(** ** Asynchronous tasks

    An [async] function body, cut at its [await]s of bucket operations:
    it fulfils, rejects, or applies an effect to the store and goes on. *)

Inductive task (R : Type) : Type :=
| Return (r : R)
| Raise (msg : string)
| Await (eff : Store -> Store) (k : task R).

Arguments Return {R} r.
Arguments Raise {R} msg.
Arguments Await {R} eff k.

(** The settled result of a task: a value or an error message. *)
Fixpoint task_result {R} (t : task R) : string + R :=
  match t with
  | Return r => inr r
  | Raise m => inl m
  | Await _ k => task_result k
  end.

(** Scheduling points left: one per [await], one for the settlement. *)
Fixpoint task_len {R} (t : task R) : nat :=
  match t with
  | Await _ k => S (task_len k)
  | _ => 1
  end.

(** The effects of a task, in the order of its [await]s. *)
Fixpoint task_effects {R} (t : task R) : list (Store -> Store) :=
  match t with
  | Await eff k => eff :: task_effects k
  | _ => []
  end.

(** ** The URL constructor

    [new URL(input)] without a base, following the basic URL parser of the
    URL standard up to the end of the authority: later states (path, query,
    fragment) never fail and do not contribute to [protocol] or [origin].
    The host parser itself (percent-decoding, IDNA, IPv4 and IPv6
    normalisation) is the platform's [parse_host]. *)

Module URL.

Record t : Type := {
  protocol : string;       (* the scheme followed by ":" *)
  origin : string;         (* the serialised origin *)
}.

Definition code (a : ascii) : nat := nat_of_ascii a.

Definition is_alpha (a : ascii) : bool :=
  (Nat.leb 65 (code a) && Nat.leb (code a) 90) || (Nat.leb 97 (code a) && Nat.leb (code a) 122).

Definition is_digit (a : ascii) : bool := Nat.leb 48 (code a) && Nat.leb (code a) 57.

Definition lower (a : ascii) : ascii :=
  if Nat.leb 65 (code a) && Nat.leb (code a) 90 then ascii_of_nat (code a + 32) else a.

Definition is_scheme_char (a : ascii) : bool :=
  is_alpha a || is_digit a || Ascii.eqb a "+" || Ascii.eqb a "-" || Ascii.eqb a ".".

(** C0 control or space *)
Definition is_c0_or_space (a : ascii) : bool := Nat.leb (code a) 32.

(** ASCII tab or newline *)
Definition is_tab_or_newline (a : ascii) : bool :=
  Nat.eqb (code a) 9 || Nat.eqb (code a) 10 || Nat.eqb (code a) 13.

Fixpoint dropWhile (f : ascii -> bool) (s : string) : string :=
  match s with
  | String a s' => if f a then dropWhile f s' else s
  | EmptyString => EmptyString
  end.

Fixpoint remove (f : ascii -> bool) (s : string) : string :=
  match s with
  | String a s' => if f a then remove f s' else String a (remove f s')
  | EmptyString => EmptyString
  end.

(** The input with leading and trailing C0 controls and spaces stripped
    and every tab and newline removed. *)
Definition preprocess (s : string) : string :=
  remove is_tab_or_newline
    (Str.rev (dropWhile is_c0_or_space (Str.rev (dropWhile is_c0_or_space s)))).

(** Scheme state: the lower-cased scheme and what follows its colon. *)
Fixpoint scheme_state (s : string) : option (string * string) :=
  match s with
  | EmptyString => None
  | String c s' =>
      if Ascii.eqb c ":" then Some (EmptyString, s')
      else if is_scheme_char c then
        match scheme_state s' with
        | Some (sch, rest) => Some (String (lower c) sch, rest)
        | None => None
        end
      else None
  end.

(** Scheme start state; without a base, a missing scheme is a failure. *)
Definition scheme_start (s : string) : option (string * string) :=
  match s with
  | String c s' =>
      if is_alpha c then
        match scheme_state s' with
        | Some (sch, rest) => Some (String (lower c) sch, rest)
        | None => None
        end
      else None
  | EmptyString => None
  end.

Definition default_port (scheme : string) : option N :=
  if String.eqb scheme "http" then Some 80%N
  else if String.eqb scheme "https" then Some 443%N
  else if String.eqb scheme "ws" then Some 80%N
  else if String.eqb scheme "wss" then Some 443%N
  else if String.eqb scheme "ftp" then Some 21%N
  else None.

Definition is_special (scheme : string) : bool :=
  String.eqb scheme "file" || match default_port scheme with Some _ => true | None => false end.

Definition is_slash (a : ascii) : bool := Ascii.eqb a "/" || Ascii.eqb a "\".

(** The code points that end the authority. *)
Definition ends_authority (special : bool) (a : ascii) : bool :=
  Ascii.eqb a "/" || Ascii.eqb a "?" || Ascii.eqb a "#" || (special && Ascii.eqb a "\").

Fixpoint takeUntil (f : ascii -> bool) (s : string) : string :=
  match s with
  | String a s' => if f a then EmptyString else String a (takeUntil f s')
  | EmptyString => EmptyString
  end.

(** Authority state: what follows the last "@" of the authority, and
    whether an "@" was seen. *)
Fixpoint after_credentials (auth : string) : bool * string :=
  match auth with
  | EmptyString => (false, EmptyString)
  | String a s' =>
      let '(seen, rest) := after_credentials s' in
      if seen then (true, rest)
      else if Ascii.eqb a "@" then (true, s')
      else (false, auth)
  end.

(** Host state: the buffer up to the first ":" outside brackets, and the
    port buffer after it when there is one. *)
Fixpoint host_state (inside : bool) (s : string) : string * option string :=
  match s with
  | EmptyString => (EmptyString, None)
  | String a s' =>
      if Ascii.eqb a ":" && negb inside then (EmptyString, Some s')
      else
        let inside' :=
          if Ascii.eqb a "[" then true
          else if Ascii.eqb a "]" then false
          else inside in
        let '(h, p) := host_state inside' s' in (String a h, p)
  end.

Fixpoint digits_value (acc : N) (s : string) : option N :=
  match s with
  | EmptyString => Some acc
  | String a s' =>
      if is_digit a then digits_value (acc * 10 + N.of_nat (code a - 48))%N s'
      else None
  end.

(** Port state: [Some None] is "no port" (empty, or the scheme's default). *)
Definition port_state (scheme : string) (buf : string) : option (option N) :=
  match buf with
  | EmptyString => Some None
  | _ =>
      match digits_value 0%N buf with
      | None => None
      | Some p =>
          if (65535 <? p)%N then None
          else if match default_port scheme with
                  | Some d => (d =? p)%N
                  | None => false
                  end then Some None
          else Some (Some p)
      end
  end.

Definition serialize_port (p : option N) : string :=
  match p with
  | None => EmptyString
  | Some n => ":" ++ NilZero.string_of_uint (N.to_uint n)
  end.

Section Parse.
Context {P : Platform}.

Definition opaque_origin : string := "null".

(** Authority, host and port states. The origin is a tuple origin only for
    the special schemes other than file. *)
Definition authority (scheme : string) (special : bool) (s : string) : option t :=
  let auth := takeUntil (ends_authority special) s in
  let '(seen, hostport) := after_credentials auth in
  if seen && negb (Str.nonempty hostport) then None
  else
    let '(hbuf, pbuf) := host_state false hostport in
    let finish (h : string) (port : option N) :=
      {| protocol := scheme ++ ":";
         origin := if special then scheme ++ "://" ++ h ++ serialize_port port
                   else opaque_origin |} in
    match pbuf with
    | Some pb =>
        if negb (Str.nonempty hbuf) then None
        else match parse_host (negb special) hbuf with
             | None => None
             | Some h =>
                 match port_state scheme pb with
                 | None => None
                 | Some port => Some (finish h port)
                 end
             end
    | None =>
        if special && negb (Str.nonempty hbuf) then None
        else match parse_host (negb special) hbuf with
             | None => None
             | Some h => Some (finish h None)
             end
    end.

Definition is_windows_drive_letter (s : string) : bool :=
  match s with
  | String a (String b EmptyString) => is_alpha a && (Ascii.eqb b ":" || Ascii.eqb b "|")
  | _ => false
  end.

(** File, file slash and file host states, without a base. *)
Definition file_state (rest : string) : option t :=
  let ok := Some {| protocol := "file:"; origin := opaque_origin |} in
  match rest with
  | String a (String b r) =>
      if is_slash a && is_slash b then
        let buf := takeUntil (ends_authority true) r in
        if is_windows_drive_letter buf || negb (Str.nonempty buf) then ok
        else match parse_host false buf with
             | None => None
             | Some _ => ok
             end
      else ok
  | _ => ok
  end.

(** [new URL(input)]; [None] when the constructor throws. *)
Definition parse (input : string) : option t :=
  match scheme_start (preprocess input) with
  | None => None
  | Some (scheme, rest) =>
      if String.eqb scheme "file" then file_state rest
      else if is_special scheme then authority scheme true (dropWhile is_slash rest)
      else match rest with
           | String "/" (String "/" r) => authority scheme false r
           | _ => Some {| protocol := scheme ++ ":"; origin := opaque_origin |}
           end
  end.

End Parse.

End URL.

(** ** The worker pool of [pMap]

    [pMap(items, limit, worker)] starts [Math.min(limit, items.length)]
    runners. A runner loops: while the shared cursor [i] is inside the
    array it claims [cur = i++], awaits [worker(items[cur], cur)] and
    stores the value in [ret[cur]]. JavaScript runs a runner without
    interruption from one [await] to the next; which suspended runner
    resumes next is left to the schedule. *)

Module PMap.

Inductive settled (A : Type) : Type :=
| Fulfilled (a : A)
| RejectedWith (msg : string).

Arguments Fulfilled {A} a.
Arguments RejectedWith {A} msg.

Section Machine.
Context {T R : Type}.
Variable items : list T.
Variable worker : T -> nat -> task R.

Inductive runner : Type :=
| Busy (cur : nat) (t : task R)    (* suspended in [await worker(items[cur], cur)] *)
| Stopped                          (* left the loop: the cursor was at the end *)
| Failed.                          (* the awaited promise rejected *)

Record state : Type := {
  cursor : nat;                    (* [i] *)
  ret : list (option R);           (* [ret]; [None] is a hole *)
  runners : list runner;
  store : Store;
  failure : option string;         (* the first rejection, the one [Promise.all] reports *)
}.

(** The loop head: [while (i < items.length) { const cur = i++; ... }] up
    to the call of the worker. *)
Definition loop_head (i : nat) : nat * runner :=
  match items !! i with
  | Some x => (S i, Busy i (worker x i))
  | None => (i, Stopped)
  end.

(** [new Array(n).fill(0).map(async () => ...)]: every runner is started in
    turn and runs up to its first [await]. *)
Fixpoint spawn (n : nat) (i : nat) : nat * list runner :=
  match n with
  | 0 => (i, [])
  | S n' =>
      let '(i1, rn) := loop_head i in
      let '(i2, rs) := spawn n' i1 in
      (i2, rn :: rs)
  end.

Definition init (n : nat) (st0 : Store) : state :=
  let '(i, rs) := spawn n 0 in
  {| cursor := i;
     ret := replicate (length items) None;
     runners := rs;
     store := st0;
     failure := None |}.

(** Runner [r] resumes and runs to its next suspension. *)
Definition step (r : nat) (st : state) : state :=
  match runners st !! r with
  | Some (Busy cur (Await eff k)) =>
      {| cursor := cursor st;
         ret := ret st;
         runners := <[r := Busy cur k]> (runners st);
         store := eff (store st);
         failure := failure st |}
  | Some (Busy cur (Return v)) =>
      let '(i, rn) := loop_head (cursor st) in
      {| cursor := i;
         ret := <[cur := Some v]> (ret st);
         runners := <[r := rn]> (runners st);
         store := store st;
         failure := failure st |}
  | Some (Busy cur (Raise m)) =>
      {| cursor := cursor st;
         ret := ret st;
         runners := <[r := Failed]> (runners st);
         store := store st;
         failure := match failure st with Some e => Some e | None => Some m end |}
  | _ => st
  end.

Definition is_busy (rn : runner) : bool :=
  match rn with Busy _ _ => true | _ => false end.

(** The runners that can resume. *)
Definition enabled (st : state) : list nat :=
  List.filter (fun r => match runners st !! r with Some rn => is_busy rn | None => false end)
    (seq 0 (length (runners st))).


(** The states the pool can be in, whatever the order of resumption. *)
Inductive reachable (n : nat) (st0 : Store) : state -> Prop :=
| reach_init : reachable n st0 (init n st0)
| reach_step st r : reachable n st0 st -> r ∈ enabled st -> reachable n st0 (step r st).

(** Each entry of the schedule selects one of the runners that can resume. *)
Fixpoint exec (fuel : nat) (sched : list nat) (st : state) : state :=
  match fuel with
  | 0 => st
  | S fuel' =>
      match enabled st with
      | [] => st
      | r0 :: rs =>
          let r := nth (hd 0 sched mod length (r0 :: rs)) (r0 :: rs) r0 in
          exec fuel' (tl sched) (step r st)
      end
  end.

(** Scheduling points of the whole run: an upper bound on its steps. *)
Definition total_len : nat :=
  sum_list (imap (fun i x => task_len (worker x i)) items).

(** [new Array(Math.min(limit, items.length))] throws a RangeError unless
    the length is a non-negative integer. *)
Definition array_length (n : num) : option nat :=
  match n with
  | Fin q =>
      if Qeq_bool q (inject_Z (Qfloor q)) && (0 <=? Qfloor q)%Z
      then Some (Z.to_nat (Qfloor q)) else None
  | _ => None
  end.

Definition pMap (sched : list nat) (limit : num) (st0 : Store)
  : settled (list (option R)) * Store :=
  match array_length (Math_min limit (num_of_nat (length items))) with
  | None => (RejectedWith "Invalid array length", st0)
  | Some n =>
      let st := exec total_len sched (init n st0) in
      (match failure st with
       | Some m => RejectedWith m
       | None => Fulfilled (ret st)
       end, store st)
  end.

(** *** Invariants of the pool *)

Definition weight (rn : runner) : nat :=
  match rn with Busy _ t => task_len t | _ => 0 end.

(** Scheduling points of the items from [i] on. *)
Definition pending (i : nat) : nat :=
  sum_list (imap (fun k x => task_len (worker x (i + k))) (drop i items)).

(** Scheduling points left in a state; every step consumes one. *)
Definition measure (st : state) : nat :=
  sum_list (weight <$> runners st) + pending (cursor st).

(** What [ret] holds when every worker has fulfilled. *)
Definition expected_ret : list (option R) :=
  imap (fun i x => match task_result (worker x i) with
                   | inr v => Some v
                   | inl _ => None
                   end) items.

Record inv (n : nat) (st : state) : Prop := {
  inv_runners : length (runners st) = n;
  inv_ret : length (ret st) = length items;
  inv_cursor : cursor st <= length items;
  (* a busy runner holds an index below the cursor, whose slot is still a
     hole, and the rest of the worker's task for that very item *)
  inv_busy : forall r cur t, runners st !! r = Some (Busy cur t) ->
      cur < cursor st /\ ret st !! cur = Some None /\
      exists x, items !! cur = Some x /\ task_result t = task_result (worker x cur);
  (* no index is held by two runners *)
  inv_distinct : forall r r' cur t t',
      runners st !! r = Some (Busy cur t) ->
      runners st !! r' = Some (Busy cur t') -> r = r';
  (* a filled slot holds the value of the worker on the item of that index *)
  inv_filled : forall i v, ret st !! i = Some (Some v) ->
      exists x, items !! i = Some x /\ task_result (worker x i) = inr v;
  (* a claimed index with a hole is in flight, unless a worker has failed *)
  inv_hole : forall i, i < cursor st -> ret st !! i = Some None ->
      (exists r t, runners st !! r = Some (Busy i t)) \/ failure st <> None;
  (* beyond the cursor nothing is written *)
  inv_unclaimed : forall i, cursor st <= i -> i < length items -> ret st !! i = Some None;
  inv_stopped : forall r, runners st !! r = Some Stopped -> cursor st = length items;
  inv_failed : forall r, runners st !! r = Some Failed -> failure st <> None;
}.


End Machine.
End PMap.

(** ** The scrape route *)

Abbreviation Env := (list (string * string)).

Section Route.
Context {P : Platform}.
Variable env : Env.              (* [process.env] *)

(** [process.env.K || d]: an unset or empty variable is falsy. *)
Definition env_nonempty (k : string) : option string :=
  match assoc k env with
  | Some s => if Str.nonempty s then Some s else None
  | None => None
  end.

Definition CF_URL : option string := assoc "CF_WORKER_URL" env.
Definition CF_TOKEN : option string := assoc "CF_WORKER_TOKEN" env.

Definition ORIGINS : list string :=
  List.filter Str.nonempty
    (List.map Str.trim
       (Str.split "," (match env_nonempty "ALLOWED_ORIGINS" with
                       | Some s => s
                       | None => EmptyString
                       end))).

Definition DEFAULT_WORKER_MAX : num :=
  match env_nonempty "WORKER_MAX" with
  | Some s => Number_ s
  | None => num_of_Z 6
  end.

Definition DEFAULT_MAX_SECTIONS : num :=
  match env_nonempty "MAX_SECTIONS" with
  | Some s => Number_ s
  | None => DEFAULT_WORKER_MAX
  end.

Definition UPLOAD_CONCURRENCY : num :=
  match env_nonempty "UPLOAD_CONCURRENCY" with
  | Some s => Number_ s
  | None => num_of_Z 2
  end.

(** [ORIGINS.includes(o)] *)
Definition includes (o : string) (l : list string) : bool :=
  existsb (String.eqb o) l.

(** [o && ORIGINS.includes(o)] *)
Definition origin_ok (o : option string) : bool :=
  match o with
  | Some s => Str.nonempty s && includes s ORIGINS
  | None => false
  end.

Definition cors (o : option string) : Headers :=
  [ ("access-control-allow-origin",
      if origin_ok o then match o with Some s => s | None => "null" end else "null");
    ("access-control-allow-methods", "POST, GET, OPTIONS");
    ("access-control-allow-headers", "content-type");
    ("access-control-max-age", "86400");
    ("vary", "Origin") ].

Definition json_headers (h : option string) : Headers :=
  ("content-type", "application/json") :: cors h.

(** [/^https?:$/.test(p)] *)
Definition is_http_protocol (p : string) : bool :=
  String.eqb p "http:" || String.eqb p "https:".

(** [norm]: the thrown message on the left, the origin on the right. *)
Definition norm (input : string) : string + string :=
  match URL.parse (if Str.startsWith input "http" then input else "https://" ++ input) with
  | None => inl "Invalid URL"
  | Some u =>
      if negb (is_http_protocol (URL.protocol u)) then inl "bad protocol"
      else inr (URL.origin u)
  end.

(** [norm] applied to a value that need not be a string (the [domain] of
    a POST body): only strings have [startsWith]. *)
Definition norm_value (v : json) : string + string :=
  match v with
  | JStr s => norm s
  | _ => inl "input.startsWith is not a function"
  end.

Definition publicOrigin (req : Request) : string :=
  match env_nonempty "PUBLIC_SITE_ORIGIN" with
  | Some forced => Str.stripTrailingSlashes forced
  | None =>
      let or_else (o : option string) (d : string) :=
        match o with
        | Some s => if Str.nonempty s then s else d
        | None => d
        end in
      let proto := or_else (header "x-forwarded-proto" req) "https" in
      let host := or_else (header "x-forwarded-host" req) (req_host req) in
      proto ++ "://" ++ host
  end.

(** The part of a string after its first comma. *)
Definition after_comma (s : string) : option string :=
  match Str.indexOf s "," with
  | Some i => Some (Str.slice_from (S i) s)
  | None => None
  end.

Definition safeDataUrlToBytes (maybeDataUrl : option json) : option bytes :=
  match maybeDataUrl with
  | Some (JStr s) =>
      match after_comma s with
      | Some b64 => Buffer_from_base64 b64       (* [None]: the [catch] branch *)
      | None => None
      end
  | _ => None
  end.

Definition safeBase64FromDataUrl (maybeDataUrl : option json) : option string :=
  match maybeDataUrl with
  | Some (JStr s) => after_comma s
  | _ => None
  end.

Definition no_section : Out :=
  {| o_id := None; o_role := None; o_bbox := None; o_confidence := None;
     o_label := None; o_image := None; o_images := None;
     o_image_b64 := None; o_images_b64 := None |}.

(** [if (s.k) out.k = String(s.k)] *)
Definition string_field (s : json) (k : string) : option string :=
  if truthy (prop s k) then
    match prop s k with Some v => Some (ToString v) | None => None end
  else None.

Definition cleanSectionMeta (s : json) : Out :=
  match s with
  | JObj _ | JArr _ =>
      {| o_id := string_field s "id";
         o_role := string_field s "role";
         o_bbox := match prop s "bbox" with
                   | Some (JArr xs) => Some (firstn 4 xs)
                   | _ => None
                   end;
         o_confidence := match prop s "confidence" with
                         | Some (JNum q) => Some q
                         | _ => None
                         end;
         o_label := string_field s "label";
         o_image := None; o_images := None;
         o_image_b64 := None; o_images_b64 := None |}
  | _ => no_section
  end.

(** What is fixed for one request before the sections are persisted. *)
Record Job : Type := {
  jobId : string;                 (* [crypto.randomUUID()] *)
  siteOrigin : string;
  basePath : string;
  absolute : bool;
  includeB64 : bool;
}.

Definition buildUrl (j : Job) (key : string) : string :=
  let relativeUrl := basePath j ++ "/api/images/" ++ key in
  if absolute j then siteOrigin j ++ relativeUrl else relativeUrl.

(** [s.id || `section_${idx}`], as it appears inside a template literal. *)
Definition safeId (s : json) (idx : nat) : string :=
  if truthy (prop s "id") then
    match prop s "id" with Some v => ToString v | None => EmptyString end
  else "section_" ++ Str.of_nat idx.

Definition tile_key (j : Job) (sid : string) (t : nat) : string :=
  "jobs/" ++ jobId j ++ "/" ++ sid ++ "/tile_" ++ Str.padStart2 (Str.of_nat t) ++ ".jpg".

Definition image_key (j : Job) (sid : string) : string :=
  "jobs/" ++ jobId j ++ "/" ++ sid ++ ".jpg".

(** [xs.filter((x) => typeof x === "string")] *)
Fixpoint only_strings (xs : list json) : list string :=
  match xs with
  | [] => []
  | JStr s :: xs' => s :: only_strings xs'
  | _ :: xs' => only_strings xs'
  end.

(** The base64 parts of the data URLs among the tiles, empty ones left out. *)
Fixpoint derived_b64s (imgs : list json) : list string :=
  match imgs with
  | [] => []
  | img :: rest =>
      match safeBase64FromDataUrl (Some img) with
      | Some b64 => if Str.nonempty b64 then b64 :: derived_b64s rest else derived_b64s rest
      | None => derived_b64s rest
      end
  end.

Definition with_images (o : Out) (urls : list string) (b64 : option (list string)) : Out :=
  {| o_id := o_id o; o_role := o_role o; o_bbox := o_bbox o;
     o_confidence := o_confidence o; o_label := o_label o;
     o_image := o_image o; o_images := Some urls;
     o_image_b64 := o_image_b64 o; o_images_b64 := b64 |}.

Definition with_image (o : Out) (url : string) (b64 : option string) : Out :=
  {| o_id := o_id o; o_role := o_role o; o_bbox := o_bbox o;
     o_confidence := o_confidence o; o_label := o_label o;
     o_image := Some url; o_images := o_images o;
     o_image_b64 := b64; o_images_b64 := o_images_b64 o |}.

Definition with_b64 (o : Out) (b64 : option string) (b64s : option (list string)) : Out :=
  {| o_id := o_id o; o_role := o_role o; o_bbox := o_bbox o;
     o_confidence := o_confidence o; o_label := o_label o;
     o_image := o_image o; o_images := o_images o;
     o_image_b64 := b64; o_images_b64 := b64s |}.

(** The loop over the tiles: [t] is the index of the head of [tiles],
    [urls] the URLs pushed so far, [k] what follows the loop. *)
Fixpoint tiles_loop (j : Job) (sid : string) (t : nat) (tiles : list json)
    (urls : list string) (k : list string -> task Out) : task Out :=
  match tiles with
  | [] => k urls
  | tile :: rest =>
      match safeDataUrlToBytes (Some tile) with
      | None => tiles_loop j sid (S t) rest urls k          (* [continue] *)
      | Some b =>
          let key := tile_key j sid t in
          Await (bucket_put key b "image/jpeg")
            (tiles_loop j sid (S t) rest (urls ++ [buildUrl j key]) k)
      end
  end.





(** The base64 copies of a tiled section, when asked for. *)
Definition tiles_b64 (j : Job) (s : json) (tiles : list json) : option (list string) :=
  if includeB64 j then
    match prop s "images_b64" with
    | Some (JArr (b :: bs)) => Some (only_strings (b :: bs))
    | _ =>
        match derived_b64s tiles with
        | [] => None
        | b64s => Some b64s
        end
    end
  else None.

Definition image_b64 (j : Job) (s : json) : option string :=
  if includeB64 j then
    match prop s "image_b64" with
    | Some (JStr b) => Some b
    | _ =>
        match safeBase64FromDataUrl (prop s "image") with
        | Some b64 => if Str.nonempty b64 then Some b64 else None
        | None => None
        end
    end
  else None.

(** The worker given to [pMap]: one section, its index. Reading [s.id]
    of [null] throws. *)
Definition persistSection (j : Job) (s : json) (idx : nat) : task Out :=
  match s with
  | JNull => Raise "Cannot read properties of null (reading 'id')"
  | _ =>
      let sid := safeId s idx in
      let meta := cleanSectionMeta s in
      match prop s "images" with
      | Some (JArr (tile :: rest)) =>
          tiles_loop j sid 0 (tile :: rest) []
            (fun urls => Return (with_images meta urls (tiles_b64 j s (tile :: rest))))
      | _ =>
          match safeDataUrlToBytes (prop s "image") with
          | Some b =>
              let key := image_key j sid in
              Await (bucket_put key b "image/jpeg")
                (Return (with_image meta (buildUrl j key) (image_b64 j s)))
          | None =>
              if includeB64 j then
                Return (with_b64 meta
                          (match prop s "image_b64" with
                           | Some (JStr b) => Some b
                           | _ => None
                           end)
                          (match prop s "images_b64" with
                           | Some (JArr bs) => Some (only_strings bs)
                           | _ => None
                           end))
              else Return meta
          end
      end
  end.

(** What a request meets outside the code: the upstream worker, the
    storage binding, the random job id and the order in which suspended
    runners resume. *)
Record Runtime : Type := {
  rt_fetch : WorkerRequest -> string + WorkerResponse;   (* left: [fetch] rejects *)
  rt_bucket : bool;               (* is [env.CLOUD_FILES] bound *)
  rt_uuid : string;
  rt_schedule : list nat;
}.

Inductive outcome : Type :=
| Responded (r : Response)
| Uncaught (msg : string).        (* the handler's promise rejects *)

Record Result : Type := {
  res_outcome : outcome;
  res_store : Store;              (* the bucket afterwards *)
  res_fetched : list WorkerRequest;   (* the requests sent upstream *)
}.

Definition one := num_of_Z 1.
Definition twelve := num_of_Z 12.

(** [Number(u.searchParams.get("max") || "")] *)
Definition qMax (req : Request) : num :=
  Number_ (match sp_get "max" (req_query req) with
           | Some s => s
           | None => EmptyString
           end).

Definition workerMax (req : Request) : num :=
  clamp (num_or (qMax req) DEFAULT_WORKER_MAX) one twelve.

(** [Number(process.env.MAX_SECTIONS || DEFAULT_MAX_SECTIONS || workerMax)] *)
Definition hardCap (req : Request) : num :=
  match env_nonempty "MAX_SECTIONS" with
  | Some s => Number_ s
  | None => num_or DEFAULT_MAX_SECTIONS (workerMax req)
  end.

Definition maxSections (req : Request) : num :=
  clamp (hardCap req) one (workerMax req).

(** The loop that forwards every query parameter but [domain]. *)
Fixpoint forward (q : SearchParams) (ps : SearchParams) : SearchParams :=
  match q with
  | [] => ps
  | (k, v) :: q' =>
      if String.eqb k "domain" then forward q' ps
      else forward q' (sp_set k v ps)
  end.

(** The search parameters of the worker URL, from those of [CF_URL]. *)
Definition worker_params (origin : string) (req : Request) (ps0 : SearchParams)
  : SearchParams :=
  let ps := forward (req_query req) (sp_set "url" origin ps0) in
  match sp_get "max" ps with
  | Some (String _ _) => ps
  | _ => sp_set "max" (String_ (workerMax req)) ps
  end.

Definition respond (st : Store) (fetched : list WorkerRequest) (r : Response) : Result :=
  {| res_outcome := Responded r; res_store := st; res_fetched := fetched |}.

(** The [catch] of [handle]. *)
Definition caught (st : Store) (fetched : list WorkerRequest) (h : option string)
    (msg : string) : Result :=
  respond st fetched
    {| status := 500;
       rbody := BJson (JObj [("error", JStr msg)]);
       rheaders := json_headers h |}.

(** [new Response(...)] inside the [try]. *)
Definition respond_new (st : Store) (fetched : list WorkerRequest) (h : option string)
    (b : Body) (s : Z) : Result :=
  match new_Response b s (json_headers h) with
  | inr r => respond st fetched r
  | inl msg => caught st fetched h msg
  end.

Definition job_of (rt : Runtime) (req : Request) : Job :=
  {| jobId := rt_uuid rt;
     siteOrigin := publicOrigin req;
     basePath := match env_nonempty "NEXT_PUBLIC_BASE_PATH" with
                 | Some s => s
                 | None => EmptyString
                 end;
     absolute := match assoc "ABSOLUTE_IMAGE_URLS" env with
                 | Some s => String.eqb s "1"
                 | None => false
                 end;
     includeB64 := match sp_get "b64" (req_query req) with
                   | Some s => String.eqb s "1"
                   | None => false
                   end |}.

(** [Array.isArray(payload.sections) ? payload.sections.slice(0, maxSections) : []] *)
Definition section_list (req : Request) (payload : json) : list json :=
  match prop payload "sections" with
  | Some (JArr xs) => slice0 (maxSections req) xs
  | _ => []
  end.

Definition handle (rt : Runtime) (st : Store) (origin : string) (req : Request)
    (h : option string) : Result :=
  let raw := match sp_get "raw" (req_query req) with
             | Some s => String.eqb s "1"
             | None => false
             end in
  match match CF_URL with Some u => URL_searchParams u | None => None end with
  | None => caught st [] h "Invalid URL"
  | Some ps0 =>
      let wreq :=
        {| wr_url := match CF_URL with Some u => u | None => EmptyString end;
           wr_params := worker_params origin req ps0;
           wr_authorization :=
             "Bearer " ++ match CF_TOKEN with Some t => t | None => "undefined" end |} in
      match rt_fetch rt wreq with
      | inl msg => caught st [wreq] h msg
      | inr wres =>
          if raw then
            respond_new st [wreq] h (BText (ws_text wres)) (ws_status wres)
          else if negb (ws_ok wres) then
            respond_new st [wreq] h (BText (ws_text wres)) (ws_status wres)
          else
            match ws_json wres with
            | None => caught st [wreq] h "Unexpected token in JSON"
            | Some JNull =>
                caught st [wreq] h "Cannot read properties of null (reading 'sections')"
            | Some payload =>
                let list := section_list req payload in
                if negb (rt_bucket rt) then
                  respond st [wreq]
                    {| status := 500;
                       rbody := BJson (JObj [("error", JStr "Storage binding CLOUD_FILES is missing")]);
                       rheaders := json_headers h |}
                else
                  match PMap.pMap list (persistSection (job_of rt req))
                          (rt_schedule rt) UPLOAD_CONCURRENCY st with
                  | (PMap.RejectedWith msg, st') => caught st' [wreq] h msg
                  | (PMap.Fulfilled sections, st') =>
                      respond st' [wreq]
                        {| status := 200;
                           rbody := BScrape (rt_uuid rt) origin sections
                                      (if truthy (prop payload "meta")
                                       then match prop payload "meta" with
                                            | Some m => m
                                            | None => JObj []
                                            end
                                       else JObj []);
                           rheaders := json_headers h |}
                  end
            end
      end
  end.

Definition OPTIONS (req : Request) : Response :=
  {| status := 200; rbody := BNull; rheaders := cors (header "origin" req) |}.

(** The body of the liveness answer. *)
Definition ping_body : json :=
  JObj [ ("ok", JBool true);
         ("basePath", JStr (match env_nonempty "NEXT_PUBLIC_BASE_PATH" with
                            | Some s => s
                            | None => EmptyString
                            end));
         ("workerUrlSet", JBool (match env_nonempty "CF_WORKER_URL" with
                                 | Some _ => true
                                 | None => false
                                 end));
         ("tokenSet", JBool (match env_nonempty "CF_WORKER_TOKEN" with
                             | Some _ => true
                             | None => false
                             end));
         ("envKeys", JArr (List.map (fun kv => JStr (fst kv)) env)) ].

Definition GET (rt : Runtime) (st : Store) (req : Request) : Result :=
  let h := header "origin" req in
  if match sp_get "ping" (req_query req) with
     | Some s => String.eqb s "1"
     | None => false
     end
  then respond st [] {| status := 200; rbody := BJson ping_body; rheaders := json_headers h |}
  else
    match sp_get "domain" (req_query req) with
    | Some (String c q') =>
        match norm (String c q') with
        | inr origin => handle rt st origin req h
        | inl msg => {| res_outcome := Uncaught msg; res_store := st; res_fetched := [] |}
        end
    | _ => respond st [] {| status := 400; rbody := BText "Missing domain"; rheaders := cors h |}
    end.

(** The answer of [POST] to an origin that is not allowed. *)
Definition origin_not_allowed (h : option string) : Response :=
  {| status := 403;
     rbody := BJson (JObj [("error", JStr "Origin not allowed")]);
     rheaders := json_headers h |}.

(** [!h || !ORIGINS.includes(h)] *)
Definition post_rejects (h : option string) : bool :=
  match h with
  | Some s => negb (Str.nonempty s) || negb (includes s ORIGINS)
  | None => true
  end.

(** [body.domain] inside the [try]: [undefined] when the body is not
    JSON or is [null]. *)
Definition body_domain (req : Request) : option json :=
  match req_json req with
  | Some JNull | None => None
  | Some b => prop b "domain"
  end.

Definition POST (rt : Runtime) (st : Store) (req : Request) : Result :=
  let h := header "origin" req in
  if post_rejects h then respond st [] (origin_not_allowed h)
  else
    match body_domain req with
    | Some d =>
        if truthy (Some d) then
          match norm_value d with
          | inr origin => handle rt st origin req h
          | inl msg => {| res_outcome := Uncaught msg; res_store := st; res_fetched := [] |}
          end
        else
          respond st []
            {| status := 400;
               rbody := BJson (JObj [("error", JStr "Missing domain")]);
               rheaders := json_headers h |}
    | None =>
        respond st []
          {| status := 400;
             rbody := BJson (JObj [("error", JStr "Missing domain")]);
             rheaders := json_headers h |}
    end.

End Route.

(** ** The image retrieval route *)

Module Images.

(** [ctx?.params?.key] *)
Inductive raw_key : Type :=
| KeyAbsent
| KeyString (s : string)
| KeyArray (parts : list string).

(** [Array.isArray(raw) ? raw : raw ? [raw] : []] *)
Definition parts (raw : raw_key) : list string :=
  match raw with
  | KeyArray ps => ps
  | KeyString s => if Str.nonempty s then [s] else []
  | KeyAbsent => []
  end.

Definition GET (st : Store) (raw : raw_key) : Response :=
  let key := Str.join "/" (parts raw) in
  if negb (Str.nonempty key) then
    {| status := 400; rbody := BText "Bad Request"; rheaders := [] |}
  else
    match bucket_get key st with
    | None => {| status := 404; rbody := BText "Not found"; rheaders := [] |}
    | Some obj =>
        {| status := 200;
           rbody := BStream (body obj);
           rheaders :=
             [ ("content-type",
                 match httpMetadata obj with
                 | Some {| contentType := Some (String c ct) |} => String c ct
                 | _ => "image/webp"
                 end);
               ("cache-control", "public, max-age=31536000, immutable") ] |}
    end.

End Images.

(** ** A platform for closed examples

    It agrees with the JavaScript platform on what the examples use:
    [Number] and [String] on decimal integers, host names made of ASCII
    letters, digits, hyphens and dots, worker URLs without a query, and
    base64 text. *)

Module Plain.

Definition number (s : string) : num :=
  match s with
  | EmptyString => num_of_Z 0
  | String "-" (String c s') =>
      match URL.digits_value 0%N (String c s') with
      | Some n => num_of_Z (- Z.of_N n)
      | None => NaN
      end
  | _ =>
      match URL.digits_value 0%N s with
      | Some n => num_of_Z (Z.of_N n)
      | None => NaN
      end
  end.

Definition to_string (n : num) : string :=
  match n with
  | NaN => "NaN"
  | PosInf => "Infinity"
  | NegInf => "-Infinity"
  | Fin q =>
      let z := Qfloor q in
      if (z <? 0)%Z then "-" ++ NilZero.string_of_uint (N.to_uint (Z.to_N (- z)))
      else NilZero.string_of_uint (N.to_uint (Z.to_N z))
  end.

Definition is_host_char (a : ascii) : bool :=
  URL.is_alpha a || URL.is_digit a || Ascii.eqb a "-" || Ascii.eqb a ".".

Definition host (opaque : bool) (s : string) : option string :=
  if forallb is_host_char (Str.to_list s)
  then Some (Str.of_list (List.map URL.lower (Str.to_list s)))
  else None.

Definition searchParams (s : string) : option (list (string * string)) :=
  match URL.scheme_start s with
  | Some _ => Some []
  | None => None
  end.

Definition sextet (a : ascii) : option N :=
  let c := N_of_ascii a in
  if ((65 <=? c) && (c <=? 90))%N then Some (c - 65)%N
  else if ((97 <=? c) && (c <=? 122))%N then Some (c - 71)%N
  else if ((48 <=? c) && (c <=? 57))%N then Some (c + 4)%N
  else if Ascii.eqb a "+" || Ascii.eqb a "-" then Some 62%N
  else if Ascii.eqb a "/" || Ascii.eqb a "_" then Some 63%N
  else None.

Fixpoint sextets (s : string) : list N :=
  match s with
  | EmptyString => []
  | String a s' =>
      if Ascii.eqb a "=" then []
      else match sextet a with
           | Some v => v :: sextets s'
           | None => sextets s'
           end
  end.

Definition octet (n : N) : Byte.byte := byte_of_ascii (ascii_of_N (N.land n 255)).

Fixpoint octets (l : list N) : bytes :=
  match l with
  | a :: b :: c :: d :: rest =>
      octet (N.lor (N.shiftl a 2) (N.shiftr b 4))
      :: octet (N.lor (N.shiftl b 4) (N.shiftr c 2))
      :: octet (N.lor (N.shiftl c 6) d)
      :: octets rest
  | [a; b; c] =>
      [octet (N.lor (N.shiftl a 2) (N.shiftr b 4));
       octet (N.lor (N.shiftl b 4) (N.shiftr c 2))]
  | [a; b] => [octet (N.lor (N.shiftl a 2) (N.shiftr b 4))]
  | _ => []
  end.

Definition base64 (s : string) : option bytes := Some (octets (sextets s)).

Definition platform : Platform := {|
  Number_ := number;
  String_ := to_string;
  parse_host := host;
  URL_searchParams := searchParams;
  Buffer_from_base64 := base64;
|}.

End Plain.

(** ** What the persister writes *)

Section Puts.
Context {P : Platform}.

(** The one write of the route: [bucket.put(key, bytes, { httpMetadata:
    { contentType: "image/jpeg" } })]. *)
Definition put_jpeg (kb : string * bytes) : Store -> Store :=
  bucket_put (fst kb) (snd kb) "image/jpeg".

(** The keys and bytes written for the tiles from index [t] on. *)
Fixpoint tile_puts (j : Job) (sid : string) (t : nat) (tiles : list json)
  : list (string * bytes) :=
  match tiles with
  | [] => []
  | tile :: rest =>
      match safeDataUrlToBytes (Some tile) with
      | Some b => (tile_key j sid t, b) :: tile_puts j sid (S t) rest
      | None => tile_puts j sid (S t) rest
      end
  end.

(** The keys and bytes the worker writes for one section, in order. *)
Definition section_puts (j : Job) (s : json) (idx : nat) : list (string * bytes) :=
  match s with
  | JNull => []
  | _ =>
      match prop s "images" with
      | Some (JArr (tile :: rest)) => tile_puts j (safeId s idx) 0 (tile :: rest)
      | _ =>
          match safeDataUrlToBytes (prop s "image") with
          | Some b => [(image_key j (safeId s idx), b)]
          | None => []
          end
      end
  end.

(** The stored object a write of [b] leaves. *)
Definition jpeg_object (b : bytes) : R2Object :=
  {| body := b; httpMetadata := Some {| contentType := Some "image/jpeg" |} |}.

(** The namespace of a job in the bucket. *)
Definition job_prefix (j : Job) : string := "jobs/" ++ jobId j ++ "/".

End Puts.

(** ** Values for the closed examples *)

Definition demo_env : Env :=
  [("CF_WORKER_URL", "https://worker.example/");
   ("ALLOWED_ORIGINS", "https://app.test");
   ("MAX_SECTIONS", "2")].



Definition demo_job : Job :=
  {| jobId := "J"; siteOrigin := "https://site.test"; basePath := "/ncp";
     absolute := false; includeB64 := false |}.



(** An upstream worker that returns one section with a single inline image. *)
Definition demo_rt : Runtime :=
  {| rt_fetch := fun _ =>
       inr {| ws_status := 200;
              ws_text := "{}";
              ws_json := Some (JObj [("sections",
                           JArr [JObj [("image", JStr "data:image/jpeg;base64,QUJD")]])]) |};
     rt_bucket := true;
     rt_uuid := "J";
     rt_schedule := [] |}.

Definition post_req : Request :=
  {| req_headers := [("origin", "https://app.test")];
     req_query := [];
     req_host := "site.test";
     req_json := Some (JObj [("domain", JStr "example.com")]) |}.

Definition ping_req : Request :=
  {| req_headers := [];
     req_query := [("ping", "1")];
     req_host := "site.test";
     req_json := None |}.

(** * Properties *)

(** ** Numbers *)

Lemma Math_min_nat (a b : nat) :
  Math_min (num_of_nat a) (num_of_nat b) = num_of_nat (Nat.min a b).
Proof.
  unfold Math_min, num_of_nat, num_of_Z, num_leb.
  destruct (Qle_bool (inject_Z (Z.of_nat a)) (inject_Z (Z.of_nat b))) eqn:E.
  - apply Qle_bool_iff in E. rewrite <- Zle_Qle in E.
    now rewrite Nat.min_l by lia.
  - assert (~ (Z.of_nat a <= Z.of_nat b)%Z) as Hn.
    { intros H. rewrite Zle_Qle in H. apply Qle_bool_iff in H. congruence. }
    now rewrite Nat.min_r by lia.
Qed.

Lemma array_length_nat (k : nat) : PMap.array_length (num_of_nat k) = Some k.
Proof.
  unfold PMap.array_length, num_of_nat, num_of_Z.
  rewrite Qfloor_Z.
  assert (Qeq_bool (inject_Z (Z.of_nat k)) (inject_Z (Z.of_nat k)) = true) as ->
    by (apply Qeq_bool_iff; reflexivity).
  assert ((0 <=? Z.of_nat k)%Z = true) as -> by (apply Z.leb_le; lia).
  simpl. now rewrite Nat2Z.id.
Qed.

(** ** The worker pool *)

Module PMapFacts.
Import PMap.

Section Facts.
Context {T R : Type}.
Variable items : list T.
Variable worker : T -> nat -> task R.

Local Abbreviation state := (@PMap.state R).
Local Abbreviation step := (PMap.step items worker).
Local Abbreviation init := (PMap.init items worker).
Local Abbreviation loop_head := (PMap.loop_head items worker).
Local Abbreviation pending := (PMap.pending items worker).
Local Abbreviation measure := (PMap.measure items worker).
Local Abbreviation inv := (PMap.inv items worker).

Lemma task_len_pos (t : task R) : 1 <= task_len t.
Proof. destruct t; simpl; lia. Qed.

Lemma loop_head_claim i x :
  items !! i = Some x -> loop_head i = (S i, Busy i (worker x i)).
Proof. intros H. unfold PMap.loop_head. now rewrite H. Qed.

Lemma loop_head_stop i :
  items !! i = None -> loop_head i = (i, Stopped).
Proof. intros H. unfold PMap.loop_head. now rewrite H. Qed.

Lemma pending_claim i x :
  items !! i = Some x -> pending i = task_len (worker x i) + pending (S i).
Proof.
  intros H. unfold PMap.pending.
  rewrite (drop_S _ _ _ H). simpl. rewrite Nat.add_0_r. f_equal. f_equal.
  apply imap_ext. intros k y _. simpl. f_equal. f_equal. lia.
Qed.

Lemma pending_stop i : items !! i = None -> pending i = 0.
Proof.
  intros H. unfold PMap.pending.
  rewrite drop_ge; [reflexivity | now apply lookup_ge_None].
Qed.

Lemma weight_insert (l : list (@runner R)) r rn rn' :
  l !! r = Some rn ->
  sum_list (weight <$> <[r := rn']> l) + weight rn = sum_list (weight <$> l) + weight rn'.
Proof.
  revert r. induction l as [|a l IH]; intros [|r] H; csimpl in *; try discriminate.
  - injection H as ->. lia.
  - specialize (IH r H). lia.
Qed.

Lemma enabled_busy (st : state) r :
  r ∈ enabled st <-> exists cur t, runners st !! r = Some (Busy cur t).
Proof.
  unfold enabled. rewrite list_elem_of_In, filter_In, in_seq. split.
  - intros [_ H]. destruct (runners st !! r) as [[cur t| |]|]; try discriminate. eauto.
  - intros (cur & t & H). split.
    + apply lookup_lt_Some in H. lia.
    + now rewrite H.
Qed.

Lemma step_measure (st : state) r :
  r ∈ enabled st -> S (measure (step r st)) = measure st.
Proof.
  rewrite enabled_busy. intros (cur & t & H).
  unfold PMap.measure, PMap.step. rewrite H.
  destruct t as [v|m|eff k]; simpl.
  - destruct (items !! cursor st) as [x|] eqn:Hx.
    + rewrite (loop_head_claim _ _ Hx). simpl.
      pose proof (weight_insert (runners st) r _ (Busy (cursor st) (worker x (cursor st))) H) as Hw.
      rewrite (pending_claim _ _ Hx). simpl in Hw. lia.
    + rewrite (loop_head_stop _ Hx). simpl.
      pose proof (weight_insert (runners st) r _ Stopped H) as Hw.
      simpl in Hw. lia.
  - pose proof (weight_insert (runners st) r _ Failed H) as Hw. simpl in Hw. lia.
  - pose proof (weight_insert (runners st) r _ (Busy cur k) H) as Hw. simpl in Hw. lia.
Qed.


Ltac insert_cases r0 r H :=
  destruct (decide (r0 = r)) as [->|];
  [ rewrite list_lookup_insert_eq in H by (eapply lookup_lt_Some; eassumption)
  | rewrite list_lookup_insert_ne in H by congruence ].

Lemma inv_await n (st : state) r cur eff k :
  inv n st -> runners st !! r = Some (Busy cur (Await eff k)) ->
  inv n {| cursor := cursor st; ret := ret st;
           runners := <[r := Busy cur k]> (runners st);
           store := eff (store st); failure := failure st |}.
Proof.
  intros [] Hr. constructor; simpl; try assumption.
  - now rewrite length_insert.
  - intros r0 c t H. insert_cases r0 r H.
    + injection H as <- <-. apply (inv_busy0 _ _ _ Hr).
    + eauto.
  - intros r0 r1 c t t' H0 H1. insert_cases r0 r H0; insert_cases r1 r H1; try reflexivity.
    + injection H0 as <- <-. eauto.
    + injection H1 as <- <-. eauto.
    + eauto.
  - intros i Hi Hh. destruct (inv_hole0 i Hi Hh) as [(r0 & t & H0)|]; [|now right].
    left. destruct (decide (r0 = r)) as [->|].
    + rewrite Hr in H0. injection H0 as <- <-.
      exists r, k. apply list_lookup_insert_eq. eapply lookup_lt_Some; eassumption.
    + exists r0, t. now rewrite list_lookup_insert_ne by congruence.
  - intros r0 H. insert_cases r0 r H; [discriminate | eauto].
  - intros r0 H. insert_cases r0 r H; [discriminate | eauto].
Qed.

Lemma inv_raise n (st : state) r cur m :
  inv n st -> runners st !! r = Some (Busy cur (Raise m)) ->
  inv n {| cursor := cursor st; ret := ret st;
           runners := <[r := Failed]> (runners st);
           store := store st;
           failure := match failure st with Some e => Some e | None => Some m end |}.
Proof.
  intros [] Hr.
  assert (Hf : match failure st with Some e => Some e | None => Some m end <> None)
    by (destruct (failure st); discriminate).
  constructor; simpl; try assumption.
  - now rewrite length_insert.
  - intros r0 c t H. insert_cases r0 r H; [discriminate | eauto].
  - intros r0 r1 c t t' H0 H1.
    insert_cases r0 r H0; [discriminate|]. insert_cases r1 r H1; [discriminate|]. eauto.
  - intros; now right.
  - intros r0 H. insert_cases r0 r H; [discriminate | eauto].
  - intros; assumption.
Qed.

Lemma inv_return n (st : state) r cur v :
  inv n st -> runners st !! r = Some (Busy cur (Return v)) ->
  inv n {| cursor := fst (loop_head (cursor st));
           ret := <[cur := Some v]> (ret st);
           runners := <[r := snd (loop_head (cursor st))]> (runners st);
           store := store st; failure := failure st |}.
Proof.
  intros [] Hr.
  destruct (inv_busy0 _ _ _ Hr) as (Hcur & Hhole & x0 & Hx0 & Hres). simpl in Hres.
  assert (Hlt : cur < length (ret st)) by (eapply lookup_lt_Some; eassumption).
  assert (Hother : forall r0 c t, r0 <> r -> runners st !! r0 = Some (Busy c t) -> c <> cur).
  { intros r0 c t Hne H0 ->. apply Hne. eauto. }
  destruct (items !! cursor st) as [x|] eqn:Hx.
  - rewrite (loop_head_claim _ _ Hx). simpl.
    assert (Hc : cursor st < length items) by (eapply lookup_lt_Some; eassumption).
    constructor; simpl.
    + now rewrite length_insert.
    + now rewrite length_insert.
    + lia.
    + intros r0 c t H. insert_cases r0 r H.
      * injection H as <- <-. split; [lia|]. split; [|eauto].
        rewrite list_lookup_insert_ne by lia. apply inv_unclaimed0; lia.
      * destruct (inv_busy0 _ _ _ H) as (? & ? & ?). split; [lia|]. split; [|assumption].
        rewrite list_lookup_insert_ne; [assumption|]. pose proof (Hother _ _ _ n0 H). congruence.
    + intros r0 r1 c t t' H0 H1. insert_cases r0 r H0; insert_cases r1 r H1; try reflexivity.
      * injection H0 as <- <-. destruct (inv_busy0 _ _ _ H1) as (? & _). lia.
      * injection H1 as <- <-. destruct (inv_busy0 _ _ _ H0) as (? & _). lia.
      * eauto.
    + intros i w H. destruct (decide (i = cur)) as [->|].
      * rewrite list_lookup_insert_eq in H by assumption. injection H as <-. eauto.
      * rewrite list_lookup_insert_ne in H by congruence. eauto.
    + intros i Hi H. destruct (decide (i = cur)) as [->|].
      { rewrite list_lookup_insert_eq in H by assumption. discriminate. }
      rewrite list_lookup_insert_ne in H by congruence.
      destruct (decide (i = cursor st)) as [->|].
      { left. exists r, (worker x (cursor st)). apply list_lookup_insert_eq.
        eapply lookup_lt_Some; eassumption. }
      destruct (inv_hole0 i ltac:(lia) H) as [(r0 & t & H0)|]; [|now right].
      left. exists r0, t. rewrite list_lookup_insert_ne; [assumption|].
      intros ->. rewrite Hr in H0. congruence.
    + intros i Hi Hi'. rewrite list_lookup_insert_ne by lia. apply inv_unclaimed0; lia.
    + intros r0 H. insert_cases r0 r H; [discriminate|]. pose proof (inv_stopped0 _ H). lia.
    + intros r0 H. insert_cases r0 r H; [discriminate | eauto].
  - rewrite (loop_head_stop _ Hx). simpl.
    assert (Hc : cursor st = length items) by (apply lookup_ge_None in Hx; lia).
    constructor; simpl; try assumption.
    + now rewrite length_insert.
    + now rewrite length_insert.
    + intros r0 c t H. insert_cases r0 r H; [discriminate|].
      destruct (inv_busy0 _ _ _ H) as (? & ? & ?). split; [lia|]. split; [|assumption].
      rewrite list_lookup_insert_ne; [assumption|]. pose proof (Hother _ _ _ n0 H). congruence.
    + intros r0 r1 c t t' H0 H1.
      insert_cases r0 r H0; [discriminate|]. insert_cases r1 r H1; [discriminate|]. eauto.
    + intros i w H. destruct (decide (i = cur)) as [->|].
      * rewrite list_lookup_insert_eq in H by assumption. injection H as <-. eauto.
      * rewrite list_lookup_insert_ne in H by congruence. eauto.
    + intros i Hi H. destruct (decide (i = cur)) as [->|].
      { rewrite list_lookup_insert_eq in H by assumption. discriminate. }
      rewrite list_lookup_insert_ne in H by congruence.
      destruct (inv_hole0 i Hi H) as [(r0 & t & H0)|]; [|now right].
      left. exists r0, t. rewrite list_lookup_insert_ne; [assumption|].
      intros ->. rewrite Hr in H0. congruence.
    + intros i Hi Hi'. lia.
    + intros; assumption.
    + intros r0 H. insert_cases r0 r H; [discriminate | eauto].
Qed.

Lemma inv_step n (st : state) r : inv n st -> inv n (step r st).
Proof.
  intros Hinv. unfold PMap.step.
  destruct (runners st !! r) as [[cur [v|m|eff k]| |]|] eqn:Hr; try assumption.
  - pose proof (inv_return n st r cur v Hinv Hr) as H.
    destruct (loop_head (cursor st)) as [i rn]. exact H.
  - now apply (inv_raise n st r cur m).
  - now apply (inv_await n st r cur eff k).
Qed.


Local Abbreviation spawn := (PMap.spawn items worker).
Local Abbreviation reachable := (PMap.reachable items worker).
Local Abbreviation exec := (PMap.exec items worker).

Lemma spawn_spec n : forall i, i + n <= length items ->
  fst (spawn n i) = i + n /\
  length (snd (spawn n i)) = n /\
  (forall r rn, snd (spawn n i) !! r = Some rn ->
     exists x, items !! (i + r) = Some x /\ rn = Busy (i + r) (worker x (i + r))) /\
  sum_list (weight <$> snd (spawn n i)) + pending (i + n) = pending i.
Proof.
  induction n as [|n IH]; intros i Hi; simpl.
  - rewrite Nat.add_0_r. repeat split; try reflexivity. intros r rn H. discriminate.
  - destruct (lookup_lt_is_Some_2 items i ltac:(lia)) as [x Hx].
    rewrite (loop_head_claim _ _ Hx).
    destruct (IH (S i) ltac:(lia)) as (Hc & Hl & Hr & Hm).
    destruct (spawn n (S i)) as [i2 rs]. simpl in *.
    split; [lia|]. split; [lia|]. split.
    + intros [|r] rn H; simpl in H.
      * injection H as <-. rewrite Nat.add_0_r. eauto.
      * destruct (Hr _ _ H) as (y & Hy & ->).
        replace (i + S r) with (S (i + r)) by lia. eauto.
    + csimpl. rewrite (pending_claim _ _ Hx).
      replace (i + S n) with (S (i + n)) by lia.
      change (list_fmap runner nat weight rs) with (weight <$> rs). lia.
Qed.

Lemma total_len_pending : PMap.total_len items worker = pending 0.
Proof. unfold PMap.total_len, PMap.pending. now rewrite drop_0. Qed.

Lemma measure_init n st0 :
  n <= length items -> measure (init n st0) = PMap.total_len items worker.
Proof.
  intros Hn. destruct (spawn_spec n 0 ltac:(lia)) as (Hc & _ & _ & Hm).
  unfold PMap.measure, PMap.init. destruct (spawn n 0) as [i rs]. simpl in *.
  rewrite total_len_pending. subst i. exact Hm.
Qed.

Lemma inv_init n st0 : n <= length items -> inv n (init n st0).
Proof.
  intros Hn. destruct (spawn_spec n 0 ltac:(lia)) as (Hc & Hl & Hr & _).
  unfold PMap.init. destruct (spawn n 0) as [i rs]. simpl in *. subst i.
  assert (Hb : forall r c t, rs !! r = Some (Busy c t) ->
            c = r /\ r < n /\ exists x, items !! r = Some x /\ t = worker x r).
  { intros r c t H. pose proof (lookup_lt_Some _ _ _ H) as Hlt.
    destruct (Hr _ _ H) as (x & Hx & Heq). injection Heq as -> ->.
    split; [reflexivity|]. split; [lia|]. eauto. }
  constructor; simpl.
  - assumption.
  - apply length_replicate.
  - assumption.
  - intros r c t H. destruct (Hb _ _ _ H) as (-> & Hlt & x & Hx & ->).
    split; [assumption|]. split; [|eauto].
    apply lookup_replicate_2. lia.
  - intros r r' c t t' H H'.
    destruct (Hb _ _ _ H) as (-> & _). destruct (Hb _ _ _ H') as (-> & _). reflexivity.
  - intros i v H. apply lookup_replicate in H as [? _]. discriminate.
  - intros i Hi _. left.
    destruct (lookup_lt_is_Some_2 rs i ltac:(lia)) as [rn Hrn].
    destruct (Hr _ _ Hrn) as (x & _ & ->). eauto.
  - intros i _ Hi. apply lookup_replicate_2. assumption.
  - intros r H. destruct (Hr _ _ H) as (x & _ & ?). discriminate.
  - intros r H. destruct (Hr _ _ H) as (x & _ & ?). discriminate.
Qed.

Lemma reachable_inv n st0 st :
  n <= length items -> reachable n st0 st -> inv n st.
Proof.
  intros Hn H. induction H; [now apply inv_init | now apply inv_step].
Qed.

Lemma enabled_measure (st : state) r : r ∈ enabled st -> 1 <= measure st.
Proof. intros H. rewrite <- (step_measure _ _ H). lia. Qed.

Lemma pick_enabled (k r0 : nat) (rs : list nat) :
  nth (k mod length (r0 :: rs)) (r0 :: rs) r0 ∈ r0 :: rs.
Proof.
  apply list_elem_of_In, nth_In, Nat.mod_upper_bound. simpl. lia.
Qed.

Lemma exec_reachable n st0 fuel : forall sched st,
  reachable n st0 st -> reachable n st0 (exec fuel sched st).
Proof.
  induction fuel as [|fuel IH]; intros sched st H; simpl; [assumption|].
  destruct (enabled st) as [|r0 rs] eqn:He; [assumption|].
  apply IH. apply reach_step; [assumption|]. rewrite He. apply pick_enabled.
Qed.

Lemma exec_final fuel : forall sched (st : state),
  measure st <= fuel -> enabled (exec fuel sched st) = [].
Proof.
  induction fuel as [|fuel IH]; intros sched st H; simpl.
  - destruct (enabled st) as [|r0 rs] eqn:He; [reflexivity|].
    assert (Hr : r0 ∈ enabled st) by (rewrite He; left).
    apply enabled_measure in Hr. lia.
  - destruct (enabled st) as [|r0 rs] eqn:He; [assumption|].
    apply IH.
    match goal with |- context [PMap.step _ _ ?r st] =>
      assert (Hr : r ∈ enabled st) by (rewrite He; apply pick_enabled);
      pose proof (step_measure _ _ Hr)
    end. lia.
Qed.


(** A state in which no runner can resume, reached without a failure,
    has every slot filled with the value of the worker on its item. *)
Lemma final_ret n (st : state) :
  (1 <= n \/ length items = 0) ->
  inv n st -> enabled st = [] -> failure st = None ->
  ret st = PMap.expected_ret items worker.
Proof.
  intros Hn Hinv He Hf.
  assert (Hnobusy : forall r c t, runners st !! r = Some (Busy c t) -> False).
  { intros r c t H. assert (Hr : r ∈ enabled st) by (apply enabled_busy; eauto).
    rewrite He in Hr. inversion Hr. }
  assert (Hcur : cursor st = length items).
  { destruct Hn as [Hn|Hn]; [|pose proof (inv_cursor _ _ _ _ Hinv); lia].
    destruct (lookup_lt_is_Some_2 (runners st) 0) as [rn Hrn].
    { rewrite (inv_runners _ _ _ _ Hinv). lia. }
    destruct rn as [c t| |].
    - exfalso. eauto.
    - eapply inv_stopped; eassumption.
    - exfalso. eapply inv_failed; eassumption. }
  apply list_eq. intros i. unfold PMap.expected_ret. rewrite list_lookup_imap.
  destruct (items !! i) as [x|] eqn:Hx; simpl.
  - pose proof (lookup_lt_Some _ _ _ Hx) as Hlt.
    destruct (lookup_lt_is_Some_2 (ret st) i) as [[v|] Hv].
    { rewrite (inv_ret _ _ _ _ Hinv). assumption. }
    + destruct (inv_filled _ _ _ _ Hinv _ _ Hv) as (y & Hy & Hres).
      rewrite Hy in Hx. injection Hx as ->. now rewrite Hres.
    + exfalso. destruct (inv_hole _ _ _ _ Hinv i ltac:(lia) Hv) as [(r & t & H)|H].
      * eauto.
      * congruence.
  - apply lookup_ge_None. rewrite (inv_ret _ _ _ _ Hinv). now apply lookup_ge_None.
Qed.






End Facts.
End PMapFacts.

(** ** Strings, search parameters and numbers *)

Lemma append_empty_r (s : string) : s ++ EmptyString = s.
Proof.
  induction s as [|a s IH]; [reflexivity|].
  change (String a (s ++ EmptyString) = String a s). now rewrite IH.
Qed.

(** ** Search parameters *)






(** ** Numbers: clamping and slicing *)









(** ** The worker of the persister *)

Section Persister.
Context {P : Platform}.









End Persister.

Section RouteFacts.
Context {P : Platform}.
Variable env : Env.



(** The answer of [handle] when the upstream worker answers with JSON and
    the persister fulfils: the array of the persister is the [sections]
    of the envelope, and the only request sent upstream is the one built
    by [worker_params]. *)
Lemma handle_persists (rt : Runtime) (st st' : Store) (origin : string)
    (req : Request) (h : option string) (url : string) (ps0 : SearchParams)
    (wres : WorkerResponse) (payload : json) (outs : list (option Out)) :
  let wreq := {| wr_url := url;
                 wr_params := worker_params env origin req ps0;
                 wr_authorization :=
                   "Bearer " ++ match CF_TOKEN env with Some t => t | None => "undefined" end |} in
  CF_URL env = Some url ->
  URL_searchParams url = Some ps0 ->
  rt_fetch rt wreq = inr wres ->
  sp_get "raw" (req_query req) <> Some "1" ->
  ws_ok wres = true ->
  ws_json wres = Some payload ->
  payload <> JNull ->
  rt_bucket rt = true ->
  PMap.pMap (section_list env req payload) (persistSection (job_of env rt req))
    (rt_schedule rt) (UPLOAD_CONCURRENCY env) st = (PMap.Fulfilled outs, st') ->
  handle env rt st origin req h
  = respond st' [wreq]
      {| status := 200;
         rbody := BScrape (rt_uuid rt) origin outs
                    (if truthy (prop payload "meta")
                     then match prop payload "meta" with Some m => m | None => JObj [] end
                     else JObj []);
         rheaders := json_headers env h |}.
Proof.
  intros wreq Hurl Hps Hfetch Hraw Hok Hjson Hnull Hbucket Hrun.
  unfold handle. rewrite Hurl, Hps. fold wreq. rewrite Hfetch, Hok, Hjson, Hbucket.
  assert (Hr : match sp_get "raw" (req_query req) with
               | Some s => String.eqb s "1"
               | None => false
               end = false).
  { destruct (sp_get "raw" (req_query req)) as [s|]; [|reflexivity].
    destruct (String.eqb s "1") eqn:E; [|reflexivity].
    apply String.eqb_eq in E. congruence. }
  rewrite Hr. simpl.
  destruct payload; try congruence; now rewrite Hrun.
Qed.






(** *** Headers of the answers *)

Lemma includes_In (o : string) (l : list string) : includes o l = true <-> In o l.
Proof.
  unfold includes. rewrite existsb_exists. split.
  - intros (x & Hx & E). apply String.eqb_eq in E. now subst.
  - intros H. exists o. split; [assumption | apply String.eqb_refl].
Qed.

Lemma ORIGINS_nonempty (s : string) : In s (ORIGINS env) -> Str.nonempty s = true.
Proof. unfold ORIGINS. intros H. now apply filter_In in H as [_ H]. Qed.

Lemma post_rejects_iff (h : option string) :
  post_rejects env h = true <-> (forall s, h = Some s -> ~ In s (ORIGINS env)).
Proof.
  unfold post_rejects. destruct h as [s|]; [|split; [intros _ s H; discriminate | reflexivity]].
  split.
  - intros H s' E Hin. injection E as <-.
    rewrite (ORIGINS_nonempty _ Hin) in H. simpl in H.
    apply includes_In in Hin. rewrite Hin in H. discriminate.
  - intros H. destruct (Str.nonempty s); [simpl | reflexivity].
    destruct (includes s (ORIGINS env)) eqn:E; [|reflexivity].
    exfalso. apply (H s eq_refl). now apply includes_In.
Qed.






(** C10. A GET whose [ping] parameter is [1] is answered at once with
    status 200 and the diagnostic JSON body, which lists the name of every
    environment variable; the [domain] parameter is not looked at, no
    request is sent upstream and the bucket is left as it was. *)
Theorem ping_bypass (rt : Runtime) (st : Store) (req : Request) :
  sp_get "ping" (req_query req) = Some "1" ->
  GET env rt st req
  = {| res_outcome :=
         Responded {| status := 200;
                      rbody := BJson (ping_body env);
                      rheaders := json_headers env (header "origin" req) |};
       res_store := st;
       res_fetched := [] |} /\
  prop (ping_body env) "envKeys" = Some (JArr (List.map (fun kv => JStr (fst kv)) env)).
Proof.
  intros H. unfold GET. rewrite H. split; reflexivity.
Qed.

(** A domain that [norm] refuses makes [GET] reject: no response is built. *)
Lemma GET_invalid_domain (rt : Runtime) (st : Store) (req : Request) c d msg :
  sp_get "ping" (req_query req) <> Some "1" ->
  sp_get "domain" (req_query req) = Some (String c d) ->
  norm (String c d) = inl msg ->
  GET env rt st req = {| res_outcome := Uncaught msg; res_store := st; res_fetched := [] |}.
Proof.
  intros Hp Hd Hn. unfold GET.
  destruct (sp_get "ping" (req_query req)) as [p|] eqn:E.
  - destruct (String.eqb p "1") eqn:E1; [apply String.eqb_eq in E1; congruence|].
    now rewrite Hd, Hn.
  - now rewrite Hd, Hn.
Qed.

(** A string that [norm] refuses, sent as the [domain] of a POST from an
    allowed origin, makes [POST] reject likewise. *)
Lemma POST_invalid_domain (rt : Runtime) (st : Store) (req : Request) o c d msg :
  header "origin" req = Some o -> In o (ORIGINS env) ->
  req_json req = Some (JObj [("domain", JStr (String c d))]) ->
  norm (String c d) = inl msg ->
  POST env rt st req = {| res_outcome := Uncaught msg; res_store := st; res_fetched := [] |}.
Proof.
  intros Ho Hin Hb Hn. unfold POST.
  assert (Hr : post_rejects env (header "origin" req) = false).
  { destruct (post_rejects env (header "origin" req)) eqn:E; [|reflexivity].
    exfalso. exact (proj1 (post_rejects_iff _) E o Ho Hin). }
  rewrite Hr. unfold body_domain. rewrite Hb. simpl. now rewrite Hn.
Qed.

(** C4 (the code at a failing input). [GET /scrape?domain=http://], and
    [POST /scrape] with body [{"domain": "http://"}] from an allowed
    origin: the domain is present and does not parse as a URL; [norm]
    throws outside the [try] of [handle], so the handler rejects with
    "Invalid URL" instead of answering 400. *)
Theorem invalid_domain_is_uncaught (rt : Runtime) (st : Store) (hs : Headers)
    (host : string) (b : option json) :
  GET env rt st {| req_headers := hs; req_query := [("domain", "http://")];
                   req_host := host; req_json := b |}
  = {| res_outcome := Uncaught "Invalid URL"; res_store := st; res_fetched := [] |} /\
  (forall o, assoc "origin" hs = Some o -> In o (ORIGINS env) ->
     POST env rt st {| req_headers := hs; req_query := [];
                       req_host := host;
                       req_json := Some (JObj [("domain", JStr "http://")]) |}
     = {| res_outcome := Uncaught "Invalid URL"; res_store := st; res_fetched := [] |}).
Proof.
  split.
  - apply (GET_invalid_domain rt st _ "h" "ttp://" "Invalid URL").
    + discriminate.
    + reflexivity.
    + reflexivity.
  - intros o Ho Hin.
    apply (POST_invalid_domain rt st _ o "h" "ttp://" "Invalid URL");
      [exact Ho | exact Hin | reflexivity | reflexivity].
Qed.

(** C5 (the code at failing inputs). [httpbin.org] has no scheme but
    starts with "http", so nothing is prepended and the URL constructor
    throws; [ftp://example.com] has a scheme that is not http(s), yet
    [https://] is prepended and the origin of host [ftp] comes back. *)
Theorem norm_scheme_test_misfires :
  norm "httpbin.org" = inl "Invalid URL" /\
  norm "ftp://example.com"
  = match parse_host false "ftp" with
    | Some host => inr ("https://" ++ host)
    | None => inl "Invalid URL"
    end.
Proof.
  split; [reflexivity|].
  unfold norm, URL.parse, URL.authority. simpl.
  destruct (parse_host false "ftp") as [host|]; [|reflexivity].
  simpl. now rewrite append_empty_r.
Qed.

End RouteFacts.

(** ** The image retrieval route *)

(** C8 (amended). For every non-empty key [K], bytes [B] and non-empty
    content type [T]: after [put(K, B, T)], the retrieval route asked for
    [K] answers 200 with body [B], content type [T] and the long-lived
    immutable cache directive; and when nothing is stored under a
    non-empty key it answers 404. *)
Theorem stored_image_round_trip (st : Store) (raw : Images.raw_key)
    (K : string) (B : bytes) (T : string) :
  Str.join "/" (Images.parts raw) = K ->
  K <> EmptyString -> T <> EmptyString ->
  Images.GET (bucket_put K B T st) raw
  = {| status := 200;
       rbody := BStream B;
       rheaders := [("content-type", T);
                    ("cache-control", "public, max-age=31536000, immutable")] |} /\
  (bucket_get K st = None ->
   Images.GET st raw = {| status := 404; rbody := BText "Not found"; rheaders := [] |}).
Proof.
  intros HK Hne HT. unfold Images.GET. rewrite HK.
  destruct K as [|c K']; [congruence|]. simpl. split.
  - unfold bucket_get, bucket_put. rewrite lookup_insert_eq. simpl.
    destruct T; [congruence | reflexivity].
  - intros Hnone. now rewrite Hnone.
Qed.

(** ** Closed examples *)





Lemma ping_bypass_witness :
  sp_get "ping" (req_query ping_req) = Some "1" /\
  GET (P := Plain.platform) demo_env
    {| rt_fetch := fun _ => inl "unreachable"; rt_bucket := false;
       rt_uuid := "J"; rt_schedule := [] |} ∅ ping_req
  = {| res_outcome :=
         Responded {| status := 200;
                      rbody := BJson (ping_body demo_env);
                      rheaders := json_headers demo_env None |};
       res_store := ∅;
       res_fetched := [] |}.
Proof.
  split; [reflexivity|].
  apply (ping_bypass (P := Plain.platform) demo_env _ ∅ ping_req). reflexivity.
Defined.

Lemma stored_image_round_trip_witness :
  Images.GET (bucket_put "jobs/J/hero.jpg" [Byte.x41] "image/jpeg" ∅)
    (Images.KeyArray ["jobs"; "J"; "hero.jpg"])
  = {| status := 200;
       rbody := BStream [Byte.x41];
       rheaders := [("content-type", "image/jpeg");
                    ("cache-control", "public, max-age=31536000, immutable")] |} /\
  (bucket_get "jobs/J/hero.jpg" (∅ : Store) = None ->
   Images.GET ∅ (Images.KeyArray ["jobs"; "J"; "hero.jpg"])
   = {| status := 404; rbody := BText "Not found"; rheaders := [] |}).
Proof.
  apply (stored_image_round_trip ∅ (Images.KeyArray ["jobs"; "J"; "hero.jpg"])
           "jobs/J/hero.jpg" [Byte.x41] "image/jpeg");
    [reflexivity | discriminate | discriminate].
Defined.

(** ** Where the stated properties fail *)




(** C8 as stated fails at the empty key: whether or not an object is
    stored under it, the route answers 400. *)
Lemma empty_key_is_bad_request :
  status (Images.GET (bucket_put EmptyString [Byte.x41] "image/jpeg" ∅) (Images.KeyArray [])) = 400%Z /\
  bucket_get EmptyString (∅ : Store) = None /\
  status (Images.GET ∅ (Images.KeyArray [])) = 400%Z.
Proof. repeat split; reflexivity. Qed.

(** ** The examples of the specification *)

Example norm_bare_domain :
  norm (P := Plain.platform) "example.com" = inr "https://example.com".
Proof. reflexivity. Qed.

Example norm_keeps_origin_only :
  norm (P := Plain.platform) "http://Example.com:8080/a/b?x=1" = inr "http://example.com:8080".
Proof. reflexivity. Qed.

(** A POST from the allowed origin, one section with a single inline
    image: the image is stored under the key of the job and the section
    comes back with its URL. *)
Example post_single_image :
  let r := POST (P := Plain.platform) demo_env demo_rt ∅ post_req in
  (res_outcome r
   = Responded
       {| status := 200;
          rbody := BScrape "J" "https://example.com"
                     [Some (with_image no_section "/api/images/jobs/J/section_0.jpg" None)]
                     (JObj []);
          rheaders := json_headers demo_env (Some "https://app.test") |}) /\
  (bucket_get "jobs/J/section_0.jpg" (res_store r)
   = Some {| body := [Byte.x41; Byte.x42; Byte.x43];
             httpMetadata := Some {| contentType := Some "image/jpeg" |} |}) /\
  (List.map (fun w => sp_get "url" (wr_params w)) (res_fetched r)
   = [Some "https://example.com"]).
Proof. vm_compute. repeat split; reflexivity. Qed.

(** Two tiles, the second malformed: one URL, no error. *)
Example tiles_second_malformed :
  task_result (persistSection (P := Plain.platform) demo_job
                 (JObj [("images", JArr [JStr "data:image/jpeg;base64,QUJD"; JStr "broken"])]) 0)
  = inr (with_images no_section ["/ncp/api/images/jobs/J/section_0/tile_00.jpg"] None).
Proof. reflexivity. Qed.

(** A POST without an Origin header is turned away before anything else
    is looked at. *)
Example post_without_origin :
  POST (P := Plain.platform) demo_env demo_rt ∅
    {| req_headers := []; req_query := []; req_host := "site.test";
       req_json := Some (JObj [("domain", JStr "example.com")]) |}
  = respond ∅ []
      {| status := 403;
         rbody := BJson (JObj [("error", JStr "Origin not allowed")]);
         rheaders := [("content-type", "application/json");
                      ("access-control-allow-origin", "null");
                      ("access-control-allow-methods", "POST, GET, OPTIONS");
                      ("access-control-allow-headers", "content-type");
                      ("access-control-max-age", "86400");
                      ("vary", "Origin")] |}.
Proof. reflexivity. Qed.

(** * Further properties *)

(** ** More on the worker pool: what it writes *)

Lemma array_length_min_le (limit : num) (len n : nat) :
  PMap.array_length (Math_min limit (num_of_nat len)) = Some n -> n <= len.
Proof.
  pose proof (array_length_nat len) as Hlen.
  change (num_of_nat len) with (Fin (inject_Z (Z.of_nat len))) in *.
  unfold Math_min. destruct limit as [| |q|]; try discriminate.
  - unfold num_leb.
    destruct (Qle_bool q (inject_Z (Z.of_nat len))) eqn:E.
    + unfold PMap.array_length.
      destruct (Qeq_bool q (inject_Z (Qfloor q)) && (0 <=? Qfloor q)%Z) eqn:Hq; [|discriminate].
      intros H. injection H as <-.
      apply andb_prop in Hq as [_ Hpos]. apply Z.leb_le in Hpos.
      apply Qle_bool_iff in E. apply Qfloor_resp_le in E. rewrite Qfloor_Z in E. lia.
    + cbv iota. rewrite Hlen. intros H. injection H as <-. lia.
  - unfold num_leb. cbv iota. rewrite Hlen. intros H. injection H as <-. lia.
Qed.

Module PoolWrites.
Import PMap.

Section Labels.
Context {T R L : Type}.
Variable items : list T.
Variable worker : T -> nat -> task R.
Variable interp : L -> Store -> Store.
Variable labels : T -> nat -> list L.
Hypothesis Hlabels : forall x i, task_effects (worker x i) = List.map interp (labels x i).

Local Abbreviation state := (@PMap.state R).
Local Abbreviation step := (PMap.step items worker).
Local Abbreviation init := (PMap.init items worker).
Local Abbreviation reachable := (PMap.reachable items worker).

(** A busy runner has run a prefix of the writes of its item and is left
    with the rest. *)
Lemma busy_labels n st0 (st : state) :
  n <= length items -> reachable n st0 st ->
  forall r cur t, runners st !! r = Some (Busy cur t) ->
    exists x pre suf, items !! cur = Some x /\
      labels x cur = (pre ++ suf)%list /\ task_effects t = List.map interp suf.
Proof.
  intros Hn Hreach. induction Hreach as [|st r0 Hreach IH Hen].
  - intros r cur t H.
    destruct (PMapFacts.spawn_spec items worker n 0 ltac:(lia)) as (_ & _ & Hr & _).
    unfold PMap.init in H. destruct (PMap.spawn items worker n 0) as [i rs]. simpl in *.
    destruct (Hr _ _ H) as (x & Hx & Heq). injection Heq as -> ->.
    exists x, [], (labels x r). split; [assumption|]. split; [reflexivity | apply Hlabels].
  - intros r cur t. unfold PMap.step.
    destruct (runners st !! r0) as [[c0 [v|m|eff k]| |]|] eqn:Hr0; try apply IH.
    + destruct (items !! cursor st) as [x|] eqn:Hx.
      * rewrite (PMapFacts.loop_head_claim _ _ _ _ Hx). simpl. intros H.
        apply list_lookup_insert_Some in H as [(-> & Heq & _)|(_ & H)]; [|eauto].
        injection Heq as <- <-.
        exists x, [], (labels x (cursor st)). split; [assumption|].
        split; [reflexivity | apply Hlabels].
      * rewrite (PMapFacts.loop_head_stop _ _ _ Hx). simpl. intros H.
        apply list_lookup_insert_Some in H as [(_ & Heq & _)|(_ & H)]; [discriminate | eauto].
    + simpl. intros H.
      apply list_lookup_insert_Some in H as [(_ & Heq & _)|(_ & H)]; [discriminate | eauto].
    + simpl. intros H.
      apply list_lookup_insert_Some in H as [(-> & Heq & _)|(_ & H)]; [|eauto].
      injection Heq as <- <-.
      destruct (IH _ _ _ Hr0) as (x & pre & suf & Hx & Hl & He).
      destruct suf as [|l suf]; [discriminate|]. simpl in He. injection He as _ He.
      exists x, (pre ++ [l])%list, suf. split; [assumption|].
      split; [now rewrite <- app_assoc | assumption].
Qed.

(** A property of the store that no write of any item breaks holds
    throughout. *)
Lemma reachable_frame (Phi : Store -> Prop) n st0 (st : state) :
  n <= length items ->
  (forall i x l s, items !! i = Some x -> l ∈ labels x i -> Phi s -> Phi (interp l s)) ->
  Phi st0 -> reachable n st0 st -> Phi (store st).
Proof.
  intros Hn Hstab H0 Hreach. induction Hreach as [|st r0 Hreach IH Hen].
  - unfold PMap.init. destruct (PMap.spawn items worker n 0). exact H0.
  - unfold PMap.step.
    destruct (runners st !! r0) as [[c0 [v|m|eff k]| |]|] eqn:Hr0; try exact IH.
    + destruct (PMap.loop_head items worker (cursor st)). exact IH.
    + simpl.
      destruct (busy_labels n st0 st Hn Hreach _ _ _ Hr0) as (x & pre & suf & Hx & Hl & He).
      destruct suf as [|l suf]; [discriminate|]. simpl in He. injection He as -> _.
      apply (Hstab c0 x l); [assumption | | exact IH].
      rewrite Hl. apply elem_of_app. right. left.
Qed.

(** What one write [l0] establishes, if no other write breaks it, holds
    from the moment the write is done. *)
Lemma reachable_post (l0 : L) (post : Store -> Prop) n st0 (st : state) :
  n <= length items ->
  (forall s, post (interp l0 s)) ->
  (forall i x l s, items !! i = Some x -> l ∈ labels x i -> post s -> post (interp l s)) ->
  reachable n st0 st ->
  (forall r cur t, runners st !! r = Some (Busy cur t) ->
     exists x pre suf, items !! cur = Some x /\
       labels x cur = (pre ++ suf)%list /\ task_effects t = List.map interp suf /\
       (l0 ∈ pre -> post (store st))) /\
  (forall i v x, ret st !! i = Some (Some v) -> items !! i = Some x ->
     l0 ∈ labels x i -> post (store st)).
Proof.
  intros Hn Hest Hstab Hreach. induction Hreach as [|st r0 Hreach [IHb IHf] Hen].
  - split.
    + intros r cur t H.
      destruct (busy_labels n st0 _ Hn (reach_init items worker n st0) _ _ _ H)
        as (x & pre & suf & Hx & Hl & He).
      destruct (PMapFacts.spawn_spec items worker n 0 ltac:(lia)) as (_ & _ & Hr & _).
      unfold PMap.init in H. destruct (PMap.spawn items worker n 0) as [i rs]. simpl in *.
      destruct (Hr _ _ H) as (y & Hy & Heq). injection Heq as -> ->.
      exists y, [], (labels y r). split; [assumption|]. split; [reflexivity|].
      split; [apply Hlabels|]. intros Hin. inversion Hin.
    + intros i v x H. unfold PMap.init in H.
      destruct (PMap.spawn items worker n 0). simpl in H.
      apply lookup_replicate in H as [? _]. discriminate.
  - unfold PMap.step.
    destruct (runners st !! r0) as [[c0 [v|m|eff k]| |]|] eqn:Hr0; try (split; assumption).
    + (* the worker of r0 has fulfilled *)
      assert (Hdone : forall y, items !! c0 = Some y -> l0 ∈ labels y c0 -> post (store st)).
      { intros y Hy Hin. destruct (IHb _ _ _ Hr0) as (x & pre & suf & Hx & Hl & He & Hp).
        rewrite Hy in Hx. injection Hx as <-.
        destruct suf; [|discriminate]. rewrite app_nil_r in Hl. rewrite Hl in Hin. auto. }
      destruct (items !! cursor st) as [x|] eqn:Hx.
      * rewrite (PMapFacts.loop_head_claim _ _ _ _ Hx). simpl. split.
        -- intros r cur t H.
           apply list_lookup_insert_Some in H as [(-> & Heq & _)|(_ & H)]; [|eauto].
           injection Heq as <- <-.
           exists x, [], (labels x (cursor st)). split; [assumption|]. split; [reflexivity|].
           split; [apply Hlabels|]. intros Hin. inversion Hin.
        -- intros i v0 x' H Hx' Hin.
           apply list_lookup_insert_Some in H as [(-> & _ & _)|(_ & H)]; eauto.
      * rewrite (PMapFacts.loop_head_stop _ _ _ Hx). simpl. split.
        -- intros r cur t H.
           apply list_lookup_insert_Some in H as [(_ & Heq & _)|(_ & H)]; [discriminate | eauto].
        -- intros i v0 x' H Hx' Hin.
           apply list_lookup_insert_Some in H as [(-> & _ & _)|(_ & H)]; eauto.
    + simpl. split.
      * intros r cur t H.
        apply list_lookup_insert_Some in H as [(_ & Heq & _)|(_ & H)]; [discriminate | eauto].
      * assumption.
    + (* r0 does its next write *)
      destruct (IHb _ _ _ Hr0) as (x & pre & suf & Hx & Hl & He & Hp).
      destruct suf as [|l suf]; [discriminate|]. simpl in He. injection He as -> He.
      assert (Hlab : l ∈ labels x c0).
      { rewrite Hl. apply elem_of_app. right. left. }
      simpl. split.
      * intros r cur t H.
        apply list_lookup_insert_Some in H as [(-> & Heq & _)|(_ & H)].
        -- injection Heq as <- <-.
           exists x, (pre ++ [l])%list, suf. split; [assumption|].
           split; [now rewrite <- app_assoc|]. split; [assumption|].
           intros Hin. apply elem_of_app in Hin as [Hin|Hin].
           ++ apply (Hstab c0 x l); auto.
           ++ apply list_elem_of_singleton in Hin. subst l0. apply Hest.
        -- destruct (IHb _ _ _ H) as (y & pre' & suf' & Hy & Hl' & He' & Hp').
           exists y, pre', suf'. repeat split; try assumption.
           intros Hin. apply (Hstab c0 x l); auto.
      * intros i v x' H Hx' Hin. apply (Hstab c0 x l); eauto.
Qed.


(** When the pool has come to rest without a failure, every slot is
    filled. *)
Lemma final_filled n (st : state) :
  (1 <= n \/ length items = 0) ->
  PMap.inv items worker n st -> enabled st = [] -> failure st = None ->
  forall i x, items !! i = Some x -> exists v, ret st !! i = Some (Some v).
Proof.
  intros Hn Hinv He Hf i x Hx.
  pose proof (PMapFacts.final_ret items worker n st Hn Hinv He Hf) as Hret.
  pose proof (lookup_lt_Some _ _ _ Hx) as Hlt.
  destruct (lookup_lt_is_Some_2 (ret st) i) as [[v|] Hv].
  { rewrite (inv_ret _ _ _ _ Hinv). assumption. }
  - eauto.
  - exfalso.
    assert (Hcur : cursor st = length items).
    { destruct Hn as [Hn|Hn]; [|lia].
      destruct (lookup_lt_is_Some_2 (runners st) 0) as [rn Hrn].
      { rewrite (inv_runners _ _ _ _ Hinv). lia. }
      destruct rn as [c t| |].
      - assert (Hr : 0 ∈ enabled st) by (apply PMapFacts.enabled_busy; eauto).
        rewrite He in Hr. inversion Hr.
      - eapply inv_stopped; eassumption.
      - exfalso. eapply inv_failed; eassumption. }
    destruct (inv_hole _ _ _ _ Hinv i ltac:(lia) Hv) as [(r & t & H)|H]; [|congruence].
    assert (Hr : r ∈ enabled st) by (apply PMapFacts.enabled_busy; eauto).
    rewrite He in Hr. inversion Hr.
Qed.

(** A property of the store that no write of any item breaks is kept by
    [pMap], whatever the limit, the schedule and the outcome. *)
Lemma pMap_frame (Phi : Store -> Prop) sched (limit : num) st0 :
  (forall i x l s, items !! i = Some x -> l ∈ labels x i -> Phi s -> Phi (interp l s)) ->
  Phi st0 -> Phi (snd (PMap.pMap items worker sched limit st0)).
Proof.
  intros Hstab H0. unfold PMap.pMap.
  destruct (array_length (Math_min limit (num_of_nat (length items)))) as [n|] eqn:E;
    [|exact H0].
  simpl. apply (reachable_frame Phi n st0); try assumption.
  - eapply array_length_min_le; eassumption.
  - apply PMapFacts.exec_reachable, reach_init.
Qed.

(** Once [pMap] has fulfilled with at least one runner, what a write of
    an item establishes holds in the final store, provided no write of
    any item breaks it. *)
Lemma pMap_post (l0 : L) (post : Store -> Prop) sched (N : nat) st0 outs st' :
  1 <= N ->
  (forall s, post (interp l0 s)) ->
  (forall i x l s, items !! i = Some x -> l ∈ labels x i -> post s -> post (interp l s)) ->
  PMap.pMap items worker sched (num_of_nat N) st0 = (Fulfilled outs, st') ->
  forall i x, items !! i = Some x -> l0 ∈ labels x i -> post st'.
Proof.
  intros HN Hest Hstab. unfold PMap.pMap.
  rewrite Math_min_nat, array_length_nat.
  set (n := Nat.min N (length items)).
  assert (Hn : n <= length items) by (subst n; lia).
  set (st := PMap.exec items worker (PMap.total_len items worker) sched (init n st0)).
  assert (Hreach : reachable n st0 st) by (apply PMapFacts.exec_reachable, reach_init).
  assert (Hfin : enabled st = []).
  { apply PMapFacts.exec_final. now rewrite PMapFacts.measure_init. }
  destruct (failure st) eqn:Hf; [discriminate|].
  intros H i x Hx Hin. injection H as _ <-.
  pose proof (PMapFacts.reachable_inv _ _ _ _ _ Hn Hreach) as Hinv.
  assert (Hn1 : 1 <= n \/ length items = 0).
  { subst n. destruct (length items); [now right | left; lia]. }
  destruct (final_filled n st Hn1 Hinv Hfin Hf i x Hx) as [v Hv].
  destruct (reachable_post l0 post n st0 st Hn Hest Hstab Hreach) as [_ Hfilled].
  eapply Hfilled; eassumption.
Qed.

End Labels.
End PoolWrites.
